(** * The quimb example notebooks: lattice bonds, Hamiltonian assembly,
      site-resolved observables and the optimiser loop

    The two notebooks [docs/examples/ex_2d.ipynb] and
    [docs/examples/ex_torch_optimize_pbc_mps.ipynb] are embedded here.
    What the notebooks compute themselves (site and bond enumeration, the
    list of Hamiltonian terms, the nested comprehensions, the optimiser
    loop) is written as Rocq functions; what they ask of the library
    (spin operators, [ikron], the eigensolver, tensor contraction, the Adam
    optimiser) is an interface, a type class whose operations the local
    code is parametric in. *)

From Stdlib Require Import Floats String Ascii.
From Stdlib Require Import List Arith Bool Lia Permutation.
Import ListNotations.

Local Open Scope nat_scope.

(** ** Lattice coordinates and sites *)

(** A site of the n-by-m lattice, the tuple [(i, j)] of the notebook. *)
Definition coord : Type := nat * nat.

(** A neighbouring pair as [gen_pairs] yields it: [((i, j), (i', j'))]. *)
Definition bond : Type := coord * coord.

(** Python's [range(n)]. The sizes [n] and [m] of the lattice are natural
    numbers here; for an [int] below zero [range] is empty, as for zero. *)
Definition range (n : nat) : list nat := seq 0 n.

(** [dims = [[2] * m] * n], of shape (n, m). *)
Definition dims_2D (n m : nat) : list (list nat) := repeat (repeat 2 m) n.

(** [sites = tuple(itertools.product(range(n), range(m)))]. *)
Definition sites (n m : nat) : list coord := list_prod (range n) (range m).

(** What one iteration of the loop of [gen_pairs] yields at site [(i, j)]:
<<
    above, right = (i + 1) % n, (j + 1) % m
    # ignore wraparound coordinates if not cyclic
    if cyclic or above != 0:
        yield ((i, j), (above, j))
    if cyclic or right != 0:
        yield ((i, j), (i, right))
>>
    In Python [%] raises on a zero modulus; the body runs at the sites of
    the lattice only, where [n] and [m] are not zero ([sites_nonzero]
    below), so that [mod] is [%] wherever it is evaluated. *)
Definition pairs_at (n m : nat) (cyclic : bool) (s : coord) : list bond :=
  let '(i, j) := s in
  let above := (i + 1) mod n in
  let right := (j + 1) mod m in
  (if cyclic || negb (above =? 0) then [((i, j), (above, j))] else [])
  ++ (if cyclic || negb (right =? 0) then [((i, j), (i, right))] else []).

(** [gen_pairs()], the generator run to its end: [for i, j in sites]. *)
Definition gen_pairs (n m : nat) (cyclic : bool) : list bond :=
  flat_map (pairs_at n m cyclic) (sites n m).

(** ** Neighbours, wraparound and the bonds of the open lattice *)

(** Two sites are nearest neighbours when they differ by one step along
    exactly one axis. *)
Definition adjacent (a b : coord) : Prop :=
  (fst a = fst b /\ (snd a + 1 = snd b \/ snd b + 1 = snd a))
  \/ (snd a = snd b /\ (fst a + 1 = fst b \/ fst b + 1 = fst a)).

(** A bond that wraps around the lattice: from the last row back to the
    first in one column, or from the last column back to the first in one
    row. *)
Definition is_wrap (n m : nat) (p : bond) : bool :=
  let '((i, j), (i', j')) := p in
  ((i =? n - 1) && (i' =? 0) && (j =? j'))
  || ((j =? m - 1) && (j' =? 0) && (i =? i')).

(** The wraparound bonds, one per column and one per row. *)
Definition wrap_pairs (n m : nat) : list bond :=
  map (fun j => ((n - 1, j), (0, j))) (range m)
  ++ map (fun i => ((i, m - 1), (i, 0))) (range n).

(** Every site that has a row above it, paired with the site above. *)
Definition vertical_bonds (n m : nat) : list bond :=
  map (fun s : coord => (s, (fst s + 1, snd s))) (sites (n - 1) m).

(** Every site that has a column to its right, paired with the site on
    the right. *)
Definition horizontal_bonds (n m : nat) : list bond :=
  map (fun s : coord => (s, (fst s, snd s + 1))) (sites n (m - 1)).

(** The nearest-neighbour pairs of the n-by-m lattice with open boundaries. *)
Definition nn_bonds (n m : nat) : list bond :=
  vertical_bonds n m ++ horizontal_bonds n m.

(** ** The library interface of the 2D notebook *)

(** Keyword arguments the notebook passes to [spin_operator]. *)
Inductive spin_kw : Type :=
| kw_default
| kw_sparse (b : bool)
| kw_stype (s : string).

(** The values the library hands out and takes back (sparse and dense
    operators, state vectors, density matrices, numbers) are one
    dynamically typed universe [obj]. The library's operations are total
    on it: what an operation raises stays inside the library. *)
Class Quimb (obj : Type) : Type := {
  (** the [int] zero that the builtin [sum] starts from *)
  py_int0 : obj;
  (** [a + b] *)
  py_add : obj -> obj -> obj;
  (** [x * a] for a Python float [x] *)
  py_scale : float -> obj -> obj;
  (** [a[k]] *)
  py_getitem : obj -> nat -> obj;
  spin_operator : string -> spin_kw -> obj;
  (** [ikron(ops, dims, inds)] *)
  ikron : obj -> list (list nat) -> list coord -> obj;
  isreal : obj -> bool;
  (** [H.real] *)
  real_part : obj -> obj;
  (** [qarray(H.A)] for a value [H] of the library *)
  qarray_dense : obj -> obj;
  (** [eigh(H, k=k)], the pair [(ge, gs)] *)
  eigh : obj -> nat -> obj * obj;
  expec : obj -> obj -> obj;
  (** [partial_trace(p, dims=dims, keep=keep)] *)
  partial_trace : obj -> list (list nat) -> list coord -> obj;
  purify : obj -> obj;
  mutinf : obj -> obj;
  (** [correlation(None, A, B, sysa, sysb, dims=dims, precomp_func=True)],
      the function it returns *)
  correlation_precomp : obj -> obj -> nat -> nat -> list nat -> obj -> obj
}.

(** What the variable [H] of [ham_heis_2D] can hold: the [int] zero that
    the builtin [sum] returns when there is nothing to add, or a value of
    the library. *)
Inductive pyval (obj : Type) : Type :=
| Py_int0
| Py_lib (o : obj).

Arguments Py_int0 {obj}.
Arguments Py_lib {obj} o.

(** Iterating over a Python [str] gives its one-character strings. *)
Definition py_chars (s : string) : list string :=
  map (fun c => String c EmptyString) (list_ascii_of_string s).

(** The functions that [ham_heis_2D] defines inside its body close over
    its arguments and over [dims] and [sites]; here they take what they
    read as arguments. The loop variable [j] of [gen_pairs] is local to
    the generator: the [j] of [interactions] is the coupling. *)
Section Ham_heis_2D.

Context {obj : Type} {Q : Quimb obj}.

(** As an operand of an operation of the library. *)
Definition to_obj (H : pyval obj) : obj :=
  match H with
  | Py_int0 => py_int0
  | Py_lib o => o
  end.

(** The builtin [sum(iterable)]: a left fold of [+] from the [int] zero.
    Of no term it is that [int] itself; of some terms it is what the [+]
    of the library returned last. *)
Definition py_sum (ts : list obj) : pyval obj :=
  match ts with
  | [] => Py_int0
  | _ :: _ => Py_lib (fold_left py_add ts py_int0)
  end.

(** [pairs_ss = tuple(itertools.product(gen_pairs(), 'xyz'))]. *)
Definition pairs_ss (n m : nat) (cyclic : bool) : list (bond * string) :=
  list_prod (gen_pairs n m cyclic) (py_chars "xyz"%string).

(** [interactions(pair_s)]; the tuple of two coordinates [pair] ([pr]
    here) goes to [inds]. *)
Definition interactions (n m : nat) (j : float) (pair_s : bond * string)
  : obj :=
  let '(pr, s) := pair_s in
  let Sxyz := spin_operator s (kw_sparse true) in
  ikron (py_scale j Sxyz) (dims_2D n m) [fst pr; snd pr].

(** [fields(site)]. *)
Definition fields (n m : nat) (bz : float) (site : coord) : obj :=
  let Sz := spin_operator "z"%string (kw_sparse true) in
  ikron (py_scale bz Sz) (dims_2D n m) [site].

(** [all_terms = itertools.chain(map(interactions, pairs_ss),
                   map(fields, sites) if bz != 0.0 else ())]. *)
Definition all_terms (n m : nat) (j bz : float) (cyclic : bool)
  : list obj :=
  map (interactions n m j) (pairs_ss n m cyclic)
  ++ (if negb (PrimFloat.eqb bz 0) then map (fields n m bz) (sites n m)
      else []).

(** [isreal(H)]: the library looks at what it is given. *)
Definition py_isreal (H : pyval obj) : bool := isreal (to_obj H).

(** [H.real]: of the [int] zero it is that [int]. *)
Definition py_real (H : pyval obj) : pyval obj :=
  match H with
  | Py_int0 => Py_int0
  | Py_lib o => Py_lib (real_part o)
  end.

(** [qarray(H.A)]: an [int] has no attribute [A], and [H.A] raises
    [AttributeError]. *)
Definition py_qarray_A (H : pyval obj) : option (pyval obj) :=
  match H with
  | Py_int0 => None
  | Py_lib o => Some (Py_lib (qarray_dense o))
  end.

(** The first step of the tail, [if isreal(H): H = H.real]. *)
Definition real_if_real (H : pyval obj) : pyval obj :=
  if py_isreal H then py_real H else H.

(** The tail of [ham_heis_2D], after [H = sum(all_terms)]:
<<
  if isreal(H):
      H = H.real
  if not sparse:
      H = qarray(H.A)
  return H
>>
    [None] is the [AttributeError] of [H.A]. *)
Definition as_returned (sparse : bool) (H : pyval obj)
  : option (pyval obj) :=
  let H := real_if_real H in
  if negb sparse then py_qarray_A H else Some H.

(** [ham_heis_2D(n, m, j, bz, cyclic, sparse)]: what it returns, or [None]
    where it raises. *)
Definition ham_heis_2D (n m : nat) (j bz : float) (cyclic sparse : bool)
  : option (pyval obj) :=
  let H := py_sum (all_terms n m j bz cyclic) in
  as_returned sparse H.

End Ham_heis_2D.

(** ** Comprehensions and indexing *)

(** Sequencing of evaluations that can raise. *)
Definition obind {A B : Type} (o : option A) (k : A -> option B)
  : option B :=
  match o with
  | Some x => k x
  | None => None
  end.

Notation "x <- e ;; k" := (obind e (fun x => k))
  (at level 100, e at next level, k at level 200, right associativity).

(** A list comprehension whose element expression can raise: the first
    failure aborts the whole comprehension. *)
Fixpoint py_listcomp {A B : Type} (f : A -> option B) (l : list A)
  : option (list B) :=
  match l with
  | [] => Some []
  | x :: l' =>
      match f x with
      | None => None
      | Some y =>
          match py_listcomp f l' with
          | None => None
          | Some ys => Some (y :: ys)
          end
      end
  end.

(** [grid[i][j]] on a list of lists; [None] is Python's [IndexError]. *)
Definition py_index2 {A : Type} (grid : list (list A)) (i j : nat)
  : option A :=
  match nth_error grid i with
  | None => None
  | Some row => nth_error row j
  end.

(** [a != b] on coordinate tuples is [negb (coord_eqb a b)]. *)
Definition coord_eqb (a b : coord) : bool :=
  (fst a =? fst b) && (snd a =? snd b).

(** ** [gen_pairs] with the [%] of Python *)

(** [a % b] on natural numbers; [None] is [ZeroDivisionError]. *)
Definition py_mod (a b : nat) : option nat :=
  if b =? 0 then None else Some (a mod b).

(** The loop body of [gen_pairs] with [py_mod] for [%]. *)
Definition pairs_at_raising (n m : nat) (cyclic : bool) (s : coord)
  : option (list bond) :=
  let '(i, j) := s in
  above <- py_mod (i + 1) n ;;
  right <- py_mod (j + 1) m ;;
  Some ((if cyclic || negb (above =? 0) then [((i, j), (above, j))] else [])
        ++ (if cyclic || negb (right =? 0) then [((i, j), (i, right))]
            else [])).

(** The generator run to its end, or the exception it raises on the way. *)
Definition gen_pairs_raising (n m : nat) (cyclic : bool)
  : option (list bond) :=
  option_map (@concat bond)
             (py_listcomp (pairs_at_raising n m cyclic) (sites n m)).

(** ** Site-resolved observables of the 2D notebook *)

Section Observables.

Context {obj : Type} {Q : Quimb obj}.

(** [Sz_ij = [[ikron(Sz, dims, [(i, j)]) for j in range(m)]
               for i in range(n)]], with the globals it reads. *)
Definition Sz_ij (Sz : obj) (dims : list (list nat)) (n m : nat)
  : list (list obj) :=
  map (fun i => map (fun j => ikron Sz dims [(i, j)]) (range m)) (range n).

(** [m_ij = [[expec(Sz_ij[i][j], gs) for j in range(m)]
              for i in range(n)]]. *)
Definition m_ij (Sz_ij : list (list obj)) (gs : obj) (n m : nat)
  : option (list (list obj)) :=
  py_listcomp
    (fun i =>
       py_listcomp
         (fun j =>
            match py_index2 Sz_ij i j with
            | None => None
            | Some op => Some (expec op gs)
            end)
         (range m))
    (range n).

(** [rho_ab_ij = [[partial_trace(gs, dims=dims, keep=[target, (i, j)])
                   for j in range(m)] for i in range(n)]]. *)
Definition rho_ab_ij (gs : obj) (dims : list (list nat)) (target : coord)
    (n m : nat) : list (list obj) :=
  map (fun i =>
         map (fun j => partial_trace gs dims [target; (i, j)]) (range m))
      (range n).

(** [mi_ij = [[mutinf(rho_ab_ij[i][j] if (i, j) != target else
                      purify(rho_ab_ij[i][j]))
               for j in range(m)] for i in range(n)]]. *)
Definition mi_ij (rho_ab_ij : list (list obj)) (target : coord) (n m : nat)
  : option (list (list obj)) :=
  py_listcomp
    (fun i =>
       py_listcomp
         (fun j =>
            arg <- (if negb (coord_eqb (i, j) target)
                    then py_index2 rho_ab_ij i j
                    else option_map purify (py_index2 rho_ab_ij i j)) ;;
            Some (mutinf arg))
         (range m))
    (range n).

(** [cy_ij = [[z_corr(rho_ab_ij[i][j] if (i, j) != target else
                      purify(rho_ab_ij[i][j]))
               for j in range(m)] for i in range(n)]]. *)
Definition cy_ij (z_corr : obj -> obj) (rho_ab_ij : list (list obj))
    (target : coord) (n m : nat) : option (list (list obj)) :=
  py_listcomp
    (fun i =>
       py_listcomp
         (fun j =>
            arg <- (if negb (coord_eqb (i, j) target)
                    then py_index2 rho_ab_ij i j
                    else option_map purify (py_index2 rho_ab_ij i j)) ;;
            Some (z_corr arg))
         (range m))
    (range n).

End Observables.

(** ** The library interface of the optimisation notebook *)

(** The body of a [lambda t: ...] as the notebook writes them: the
    parameter [t], and on it the calls [torch.tensor(e, requires_grad=b)],
    [e.detach()] and [e.numpy()]. *)
Inductive array_expr : Type :=
| a_param
| a_torch_tensor (e : array_expr) (requires_grad : bool)
| a_detach (e : array_expr)
| a_numpy (e : array_expr).

(** The functions the notebook maps over the arrays of a tensor network:
    the function [torch.tensor] of the library, passed as it is, and the
    anonymous functions the notebook writes itself. *)
Inductive array_fn : Type :=
| fn_torch_tensor
| fn_lambda (body : array_expr).

(** [lambda t: torch.tensor(t, requires_grad=True)]. *)
Definition fn_tensor_requires_grad : array_fn :=
  fn_lambda (a_torch_tensor a_param true).

(** [lambda t: t.detach().numpy()]. *)
Definition fn_detach_numpy : array_fn :=
  fn_lambda (a_numpy (a_detach a_param)).

(** quimb, quimb.tensor and torch as the notebook uses them, on one
    universe [tobj] of values. The optimiser is built from the data of the
    tensors of [mps] and updates them in place: the operations that touch
    these shared tensors take the network that holds them and return it as
    it is afterwards. *)
Class TorchMPS (tobj : Type) : Type := {
  (** [qu.ham_heis(L, sparse=sparse, cyclic=cyclic)] *)
  ham_heis : nat -> bool -> bool -> tobj;
  groundstate : tobj -> tobj;
  Dense1D : tobj -> tobj;
  (** [qtn.MPS_rand_state(L, bond_dim, cyclic=cyclic)], the state drawn *)
  MPS_rand_state : nat -> nat -> bool -> tobj;
  (** [x.apply_to_arrays(fn)], [x] afterwards *)
  apply_to_arrays : tobj -> array_fn -> tobj;
  (** [a @ b] *)
  tn_matmul : tobj -> tobj -> tobj;
  (** [x ** k] for an [int] and for a [float] exponent *)
  t_pow_int : tobj -> nat -> tobj;
  t_pow_float : tobj -> float -> tobj;
  (** [- x] and [x / y] *)
  t_neg : tobj -> tobj;
  t_div : tobj -> tobj -> tobj;
  (** [x /= y], [x] afterwards *)
  tn_idiv : tobj -> tobj -> tobj;
  (** [x.item()] *)
  t_item : tobj -> float;
  (** [torch.optim.Adam([t.data for t in mps], lr=lr)] *)
  Adam : tobj -> float -> tobj;
  (** [optimizer.zero_grad()], the tensors afterwards *)
  zero_grad : tobj -> tobj -> tobj;
  (** [loss.backward()], the tensors with their gradients *)
  backward : tobj -> tobj -> tobj;
  (** [optimizer.step()], the optimiser and the tensors afterwards *)
  adam_step : tobj -> tobj -> tobj * tobj;
  (** [type(x[k].data)] *)
  data_type : tobj -> nat -> tobj
}.

(** The calls of one round of optimisation, as they are made. *)
Inductive torch_call (tobj : Type) : Type :=
| call_zero_grad
| call_backward (loss : tobj)
| call_step.

Arguments call_zero_grad {tobj}.
Arguments call_backward {tobj} loss.
Arguments call_step {tobj}.

(** What the loop of the notebook changes: the tensors of [mps] (shared
    with the optimiser), the optimiser, the calls made so far and the
    lines printed so far ([round] and [loss.item()] of each). *)
Record opt_state (tobj : Type) : Type := mk_opt_state {
  cur_mps : tobj;
  cur_opt : tobj;
  calls : list (torch_call tobj);
  printed : list (nat * float)
}.

Arguments mk_opt_state {tobj}.
Arguments cur_mps {tobj}.
Arguments cur_opt {tobj}.
Arguments calls {tobj}.
Arguments printed {tobj}.

Section Optimise.

Context {tobj : Type} {T : TorchMPS tobj}.

(** The body of [for t in range(1, 101)]:
<<
    loss = - (mps @ target)**2 / (mps @ mps)
    optimizer.zero_grad()
    loss.backward()
    optimizer.step()
    if t % 10 == 0:
        print(f"round: {t}, loss: {loss.item()}")
>>
    [**] binds tighter than the unary minus, and the unary minus tighter
    than [/]. *)
Definition optimize_round (target : tobj) (s : opt_state tobj) (t : nat)
  : opt_state tobj :=
  let mps := cur_mps s in
  let loss :=
    t_div (t_neg (t_pow_int (tn_matmul mps target) 2)) (tn_matmul mps mps) in
  let mps1 := zero_grad (cur_opt s) mps in
  let mps2 := backward loss mps1 in
  let r := adam_step (cur_opt s) mps2 in
  mk_opt_state (snd r) (fst r)
    (calls s ++ [call_zero_grad; call_backward loss; call_step])
    (printed s ++ if t mod 10 =? 0 then [(t, t_item loss)] else []).

(** [for t in range(1, rounds + 1)]; the notebook has [rounds = 100]. *)
Definition optimize (rounds : nat) (target : tobj) (s : opt_state tobj)
  : opt_state tobj :=
  fold_left (optimize_round target) (seq 1 rounds) s.

(** The negated normalised squared overlap of [mps] with [target]; no
    conjugate of either state is taken. *)
Definition neg_overlap (target mps : tobj) : tobj :=
  t_div (t_neg (t_pow_int (tn_matmul mps target) 2)) (tn_matmul mps mps).

(** One Adam update of the pair (tensors, optimiser) against
    [neg_overlap]: gradients cleared, gradient of the loss taken, step. *)
Definition adam_update (target : tobj) (p : tobj * tobj) : tobj * tobj :=
  let mps := fst p in
  let opt := snd p in
  let r :=
    adam_step opt (backward (neg_overlap target mps) (zero_grad opt mps)) in
  (snd r, fst r).

End Optimise.

(** The loss of the last [backward] among the calls made. *)
Definition last_loss {tobj : Type} (cs : list (torch_call tobj))
  : option tobj :=
  fold_left
    (fun acc c => match c with call_backward l => Some l | _ => acc end)
    cs None.

(** ** Notebook kernels

    A notebook is a list of code cells, a cell a list of top-level
    statements, run in this order against the globals of the kernel. A
    statement that reads a name which no earlier statement has bound
    raises [NameError]; it is [None] here, and it ends the run. *)

(** What a statement is there for, in the words of the overview: the
    import of a library, the construction of the Hamiltonian or of a
    state, the call of the eigensolver, a step of the optimisation, the
    computation of an observable, and printing, plotting or echoing. *)
Inductive phase : Type :=
| ImportLib
| BuildHam
| BuildState
| Solve
| OptimizeMPS
| Observe
| Output.

(** The place of a phase in the sequence import, build, solve,
    optimise or observe, print or plot. *)
Definition phase_rank (p : phase) : nat :=
  match p with
  | ImportLib => 0
  | BuildHam | BuildState => 1
  | Solve => 2
  | OptimizeMPS | Observe => 3
  | Output => 4
  end.

Section Kernel.

Context {V : Type}.

(** The global names of the kernel, the latest binding first. *)
Definition globals : Type := list (string * V).

Fixpoint lookup (x : string) (g : globals) : option V :=
  match g with
  | [] => None
  | (y, v) :: g' => if String.eqb x y then Some v else lookup x g'
  end.

Definition assign (x : string) (v : V) (g : globals) : globals :=
  (x, v) :: g.

(** All of these names are bound. *)
Fixpoint need (xs : list string) (g : globals) : option unit :=
  match xs with
  | [] => Some tt
  | x :: xs' => _ <- lookup x g ;; need xs' g
  end.

(** A top-level statement: its phase, the global names through which it
    calls functions (builtins such as [print] and [range] are not
    globals), the bodies of the [lambda] expressions it writes, and what
    it does to the globals. *)
Record stmt : Type := mk_stmt {
  phase_of : phase;
  calls_of : list string;
  lambdas_of : list array_expr;
  exec : globals -> option globals
}.

Definition run_stmt (s : stmt) (g : globals) : option globals :=
  _ <- need (calls_of s) g ;; exec s g.

Fixpoint run_stmts (ss : list stmt) (g : globals) : option globals :=
  match ss with
  | [] => Some g
  | s :: ss' => g' <- run_stmt s g ;; run_stmts ss' g'
  end.

Definition notebook : Type := list (list stmt).

(** Run all cells, from a fresh kernel. *)
Definition run (nb : notebook) : option globals :=
  run_stmts (concat nb) [].

Definition phases (nb : notebook) : list phase :=
  map phase_of (concat nb).

(** The names called by the statements of the notebook. *)
Definition called (nb : notebook) : list string :=
  flat_map calls_of (concat nb).


End Kernel.

Arguments globals V : clear implicits.
Arguments stmt V : clear implicits.
Arguments notebook V : clear implicits.

(** ** The 2D notebook, cell by cell *)

(** What a global of the 2D notebook can hold: a module or function bound
    by an [import], a function bound by a [def], a number, a list of
    sizes, [dims], a coordinate, a value of the library, a grid of them,
    a function the library returned. *)
Inductive val (obj : Type) : Type :=
| V_imported
| V_defined
| V_nat (n : nat)
| V_sizes (l : list nat)
| V_dims (d : list (list nat))
| V_coord (c : coord)
| V_obj (o : obj)
| V_grid (g : list (list obj))
| V_fun (f : obj -> obj).

Arguments V_imported {obj}.
Arguments V_defined {obj}.
Arguments V_nat {obj} n.
Arguments V_sizes {obj} l.
Arguments V_dims {obj} d.
Arguments V_coord {obj} c.
Arguments V_obj {obj} o.
Arguments V_grid {obj} g.
Arguments V_fun {obj} f.

Definition is_defined {obj : Type} (v : val obj) : bool :=
  match v with V_defined => true | _ => false end.

Section Ex_2d.

Context {obj : Type} {Q : Quimb obj}.

Definition get_nat (x : string) (g : globals (val obj)) : option nat :=
  match lookup x g with Some (V_nat n) => Some n | _ => None end.

Definition get_dims (x : string) (g : globals (val obj))
  : option (list (list nat)) :=
  match lookup x g with Some (V_dims d) => Some d | _ => None end.

Definition get_coord (x : string) (g : globals (val obj)) : option coord :=
  match lookup x g with Some (V_coord c) => Some c | _ => None end.

Definition get_obj (x : string) (g : globals (val obj)) : option obj :=
  match lookup x g with Some (V_obj o) => Some o | _ => None end.

Definition get_grid (x : string) (g : globals (val obj))
  : option (list (list obj)) :=
  match lookup x g with Some (V_grid r) => Some r | _ => None end.

Definition get_fun (x : string) (g : globals (val obj))
  : option (obj -> obj) :=
  match lookup x g with Some (V_fun f) => Some f | _ => None end.

(** An [import] statement, with the names it binds. *)
Definition st_import (names : list string) : stmt (val obj) :=
  mk_stmt ImportLib [] []
    (fun g => Some (fold_left (fun g x => assign x V_imported g) names g)).

(** The names of [from quimb import *] that the notebook goes on to use. *)
Definition quimb_star : list string :=
  ["spin_operator"; "ikron"; "isreal"; "qarray"; "eigh"; "expec";
   "partial_trace"; "purify"; "mutinf"; "correlation"]%string.

Local Open Scope string_scope.

(** In [1]: the imports and [def ham_heis_2D]. *)
Definition ex_2d_In1 : list (stmt (val obj)) :=
  [ st_import ["itertools"];
    st_import ["add"];
    st_import ["np"];
    st_import quimb_star;
    mk_stmt BuildHam [] []
      (fun g => Some (assign "ham_heis_2D" V_defined g)) ].

(** In [2]:
<<
    n, m = 4, 5
    dims = [[2] * m] * n
    for row in dims:
        print(row)
>> *)
Definition ex_2d_In2 : list (stmt (val obj)) :=
  [ mk_stmt BuildHam [] []
      (fun g => Some (assign "m" (V_nat 5) (assign "n" (V_nat 4) g)));
    mk_stmt BuildHam [] []
      (fun g =>
         n <- get_nat "n" g ;; m <- get_nat "m" g ;;
         Some (assign "dims" (V_dims (repeat (repeat 2 m) n)) g));
    mk_stmt Output [] []
      (fun g =>
         dims <- get_dims "dims" g ;;
         Some (fold_left (fun g row => assign "row" (V_sizes row) g)
                         dims g)) ].

(** In [3]: [H = ham_heis_2D(n, m, cyclic=False)], with the defaults
    [j=1.0, bz=0.0, sparse=True]; the body of the function reads
    [itertools], [spin_operator], [ikron] and [isreal]. A call that
    raises ends the run. *)
Definition ex_2d_In3 : list (stmt (val obj)) :=
  [ mk_stmt BuildHam ["ham_heis_2D"] []
      (fun g =>
         n <- get_nat "n" g ;; m <- get_nat "m" g ;;
         _ <- need ["itertools"; "spin_operator"; "ikron"; "isreal"] g ;;
         H <- ham_heis_2D n m 1%float 0%float false true ;;
         Some (assign "H" (V_obj (to_obj H)) g)) ].

(** In [4]:
    [H = H + 0.2 * ikron(spin_operator('Z', sparse=True), dims, [(1, 2)])];
    the double nearest to [0.2] is [0x1.999999999999ap-3]. *)
Definition ex_2d_In4 : list (stmt (val obj)) :=
  [ mk_stmt BuildHam ["ikron"; "spin_operator"] []
      (fun g =>
         H <- get_obj "H" g ;; dims <- get_dims "dims" g ;;
         Some (assign "H"
                 (V_obj (py_add H
                           (py_scale 0x1.999999999999ap-3%float
                              (ikron (spin_operator "Z" (kw_sparse true))
                                     dims [(1, 2)]))))
                 g)) ].

(** In [5]: [%time ge, gs = eigh(H, k=1)]; the magic prints the time the
    statement took. *)
Definition ex_2d_In5 : list (stmt (val obj)) :=
  [ mk_stmt Solve ["eigh"] []
      (fun g =>
         H <- get_obj "H" g ;;
         let r := eigh H 1 in
         Some (assign "gs" (V_obj (snd r)) (assign "ge" (V_obj (fst r)) g))) ].

(** In [6]: [ge[0]], echoed. *)
Definition ex_2d_In6 : list (stmt (val obj)) :=
  [ mk_stmt Output [] [] (fun g => ge <- get_obj "ge" g ;; Some g) ].

(** In [7]:
<<
    Sz = spin_operator('Z', stype='coo')
    Sz_ij = [[ikron(Sz, dims, [(i, j)])
              for j in range(m)]
             for i in range(n)]
>> *)
Definition ex_2d_In7 : list (stmt (val obj)) :=
  [ mk_stmt Observe ["spin_operator"] []
      (fun g =>
         Some (assign "Sz" (V_obj (spin_operator "Z" (kw_stype "coo"))) g));
    mk_stmt Observe ["ikron"] []
      (fun g =>
         n <- get_nat "n" g ;; m <- get_nat "m" g ;;
         Sz <- get_obj "Sz" g ;; dims <- get_dims "dims" g ;;
         Some (assign "Sz_ij" (V_grid (Sz_ij Sz dims n m)) g)) ].

(** In [8]:
<<
    m_ij = [[expec(Sz_ij[i][j], gs)
             for j in range(m)]
            for i in range(n)]

    %matplotlib inline
    import matplotlib.pyplot as plt

    plt.imshow(m_ij)
    plt.colorbar()
>> *)
Definition ex_2d_In8 : list (stmt (val obj)) :=
  [ mk_stmt Observe ["expec"] []
      (fun g =>
         n <- get_nat "n" g ;; m <- get_nat "m" g ;;
         Sz_ij <- get_grid "Sz_ij" g ;; gs <- get_obj "gs" g ;;
         r <- m_ij Sz_ij gs n m ;;
         Some (assign "m_ij" (V_grid r) g));
    st_import ["plt"];
    mk_stmt Output ["plt"] [] (fun g => _ <- get_grid "m_ij" g ;; Some g);
    mk_stmt Output ["plt"] [] (fun g => Some g) ].

(** In [9]:
<<
    target = (1, 2)

    rho_ab_ij = [[partial_trace(gs, dims=dims, keep=[target, (i, j)])
                  for j in range(m)]
                 for i in range(n)]
>> *)
Definition ex_2d_In9 : list (stmt (val obj)) :=
  [ mk_stmt Observe [] [] (fun g => Some (assign "target" (V_coord (1, 2)) g));
    mk_stmt Observe ["partial_trace"] []
      (fun g =>
         n <- get_nat "n" g ;; m <- get_nat "m" g ;;
         gs <- get_obj "gs" g ;; dims <- get_dims "dims" g ;;
         target <- get_coord "target" g ;;
         Some (assign "rho_ab_ij"
                 (V_grid (rho_ab_ij gs dims target n m)) g)) ].

(** In [10]: [mi_ij = ...], then [plt.imshow(mi_ij)] and
    [plt.colorbar()]. *)
Definition ex_2d_In10 : list (stmt (val obj)) :=
  [ mk_stmt Observe ["mutinf"; "purify"] []
      (fun g =>
         n <- get_nat "n" g ;; m <- get_nat "m" g ;;
         rho <- get_grid "rho_ab_ij" g ;;
         target <- get_coord "target" g ;;
         r <- mi_ij rho target n m ;;
         Some (assign "mi_ij" (V_grid r) g));
    mk_stmt Output ["plt"] [] (fun g => _ <- get_grid "mi_ij" g ;; Some g);
    mk_stmt Output ["plt"] [] (fun g => Some g) ].

(** In [11]:
<<
    Sy = spin_operator('y')
    z_corr = correlation(None, Sy, Sy, 0, 1, dims=[2, 2], precomp_func=True)
>> *)
Definition ex_2d_In11 : list (stmt (val obj)) :=
  [ mk_stmt Observe ["spin_operator"] []
      (fun g =>
         Some (assign "Sy" (V_obj (spin_operator "y" kw_default)) g));
    mk_stmt Observe ["correlation"] []
      (fun g =>
         Sy <- get_obj "Sy" g ;;
         Some (assign "z_corr"
                 (V_fun (correlation_precomp Sy Sy 0 1 [2; 2])) g)) ].

(** In [12]: [cy_ij = ...], then [plt.imshow(cy_ij)] and
    [plt.colorbar()]. *)
Definition ex_2d_In12 : list (stmt (val obj)) :=
  [ mk_stmt Observe ["z_corr"; "purify"] []
      (fun g =>
         n <- get_nat "n" g ;; m <- get_nat "m" g ;;
         z_corr <- get_fun "z_corr" g ;;
         rho <- get_grid "rho_ab_ij" g ;;
         target <- get_coord "target" g ;;
         r <- cy_ij z_corr rho target n m ;;
         Some (assign "cy_ij" (V_grid r) g));
    mk_stmt Output ["plt"] [] (fun g => _ <- get_grid "cy_ij" g ;; Some g);
    mk_stmt Output ["plt"] [] (fun g => Some g) ].

(** [docs/examples/ex_2d.ipynb]. *)
Definition ex_2d : notebook (val obj) :=
  [ ex_2d_In1; ex_2d_In2; ex_2d_In3; ex_2d_In4; ex_2d_In5; ex_2d_In6;
    ex_2d_In7; ex_2d_In8; ex_2d_In9; ex_2d_In10; ex_2d_In11; ex_2d_In12 ].

End Ex_2d.

(** ** The optimisation notebook, cell by cell *)

(** What a global of the optimisation notebook can hold. *)
Inductive tval (tobj : Type) : Type :=
| T_imported
| T_defined
| T_nat (n : nat)
| T_obj (o : tobj).

Arguments T_imported {tobj}.
Arguments T_defined {tobj}.
Arguments T_nat {tobj} n.
Arguments T_obj {tobj} o.

Definition is_tdefined {tobj : Type} (v : tval tobj) : bool :=
  match v with T_defined => true | _ => false end.

Section Ex_torch.

Context {tobj : Type} {T : TorchMPS tobj}.

Local Open Scope string_scope.

Definition get_tnat (x : string) (g : globals (tval tobj)) : option nat :=
  match lookup x g with Some (T_nat n) => Some n | _ => None end.

Definition get_tobj (x : string) (g : globals (tval tobj)) : option tobj :=
  match lookup x g with Some (T_obj o) => Some o | _ => None end.

Definition st_timport (name : string) : stmt (tval tobj) :=
  mk_stmt ImportLib [] [] (fun g => Some (assign name T_imported g)).

(** In [1]:
<<
    import torch
    import quimb as qu
    import quimb.tensor as qtn
    qtn.set_contract_backend('torch')
>> *)
Definition ex_torch_In1 : list (stmt (tval tobj)) :=
  [ st_timport "torch";
    st_timport "qu";
    st_timport "qtn";
    mk_stmt ImportLib ["qtn"] [] (fun g => Some g) ].

(** In [2]:
<<
    L = 16
    H = qu.ham_heis(L, sparse=True, cyclic=True)
    gs = qu.groundstate(H)
>> *)
Definition ex_torch_In2 : list (stmt (tval tobj)) :=
  [ mk_stmt BuildHam [] [] (fun g => Some (assign "L" (T_nat 16) g));
    mk_stmt BuildHam ["qu"] []
      (fun g =>
         L <- get_tnat "L" g ;;
         Some (assign "H" (T_obj (ham_heis L true true)) g));
    mk_stmt Solve ["qu"] []
      (fun g =>
         H <- get_tobj "H" g ;;
         Some (assign "gs" (T_obj (groundstate H)) g)) ].

(** In [3]:
<<
    target = qtn.Dense1D(gs)
    target.apply_to_arrays(torch.tensor)
>> *)
Definition ex_torch_In3 : list (stmt (tval tobj)) :=
  [ mk_stmt BuildState ["qtn"] []
      (fun g =>
         gs <- get_tobj "gs" g ;;
         Some (assign "target" (T_obj (Dense1D gs)) g));
    mk_stmt BuildState ["torch"] []
      (fun g =>
         target <- get_tobj "target" g ;;
         Some (assign "target"
                 (T_obj (apply_to_arrays target fn_torch_tensor)) g)) ].

(** In [4]:
<<
    bond_dim = 32
    mps = qtn.MPS_rand_state(L, bond_dim, cyclic=True)
    mps.apply_to_arrays(lambda t: torch.tensor(t, requires_grad=True))
>> *)
Definition ex_torch_In4 : list (stmt (tval tobj)) :=
  [ mk_stmt BuildState [] [] (fun g => Some (assign "bond_dim" (T_nat 32) g));
    mk_stmt BuildState ["qtn"] []
      (fun g =>
         L <- get_tnat "L" g ;; bond_dim <- get_tnat "bond_dim" g ;;
         Some (assign "mps" (T_obj (MPS_rand_state L bond_dim true)) g));
    (let body := a_torch_tensor a_param true in
     mk_stmt BuildState ["torch"] [body]
       (fun g =>
          mps <- get_tobj "mps" g ;;
          Some (assign "mps"
                  (T_obj (apply_to_arrays mps (fn_lambda body))) g))) ].

(** In [5]: [optimizer = torch.optim.Adam([t.data for t in mps], lr=0.01)]
    (the double nearest to [0.01] is [0x1.47ae147ae147bp-7]) and the loop
    [for t in range(1, 101)], which leaves [t] and [loss] bound and the
    tensors shared by [mps] and [optimizer] updated. *)
Definition ex_torch_In5 : list (stmt (tval tobj)) :=
  [ mk_stmt OptimizeMPS ["torch"] []
      (fun g =>
         mps <- get_tobj "mps" g ;;
         Some (assign "optimizer"
                 (T_obj (Adam mps 0x1.47ae147ae147bp-7%float)) g));
    mk_stmt OptimizeMPS [] []
      (fun g =>
         mps <- get_tobj "mps" g ;; target <- get_tobj "target" g ;;
         optimizer <- get_tobj "optimizer" g ;;
         let s := optimize 100 target (mk_opt_state mps optimizer [] []) in
         loss <- last_loss (calls s) ;;
         Some (assign "mps" (T_obj (cur_mps s))
                 (assign "optimizer" (T_obj (cur_opt s))
                    (assign "loss" (T_obj loss)
                       (assign "t" (T_nat 100) g))))) ].

(** In [6]:
<<
    mps /= (mps @ mps)**0.5
    mps @ mps
>> *)
Definition ex_torch_In6 : list (stmt (tval tobj)) :=
  [ mk_stmt OptimizeMPS [] []
      (fun g =>
         mps <- get_tobj "mps" g ;;
         Some (assign "mps"
                 (T_obj (tn_idiv mps
                           (t_pow_float (tn_matmul mps mps) 0.5%float)))
                 g));
    mk_stmt Output [] [] (fun g => _ <- get_tobj "mps" g ;; Some g) ].

(** In [7]: [(mps @ target)**2], echoed. *)
Definition ex_torch_In7 : list (stmt (tval tobj)) :=
  [ mk_stmt Output [] []
      (fun g =>
         _ <- get_tobj "mps" g ;; _ <- get_tobj "target" g ;; Some g) ].

(** In [8]: [mps.apply_to_arrays(lambda t: t.detach().numpy())]. *)
Definition ex_torch_In8 : list (stmt (tval tobj)) :=
  [ let body := a_numpy (a_detach a_param) in
    mk_stmt OptimizeMPS [] [body]
      (fun g =>
         mps <- get_tobj "mps" g ;;
         Some (assign "mps" (T_obj (apply_to_arrays mps (fn_lambda body)))
                 g)) ].

(** In [9]: [type(mps[4].data)], echoed. *)
Definition ex_torch_In9 : list (stmt (tval tobj)) :=
  [ mk_stmt Output [] [] (fun g => _ <- get_tobj "mps" g ;; Some g) ].

(** [docs/examples/ex_torch_optimize_pbc_mps.ipynb]. *)
Definition ex_torch : notebook (tval tobj) :=
  [ ex_torch_In1; ex_torch_In2; ex_torch_In3; ex_torch_In4; ex_torch_In5;
    ex_torch_In6; ex_torch_In7; ex_torch_In8; ex_torch_In9 ].

End Ex_torch.

(** ** Recording implementations of the interfaces

    Every operation returns the record of its own call, so that running
    the notebook code gives the tree of library calls it makes. *)

Inductive sym : Type :=
| SInt0
| SAdd (a b : sym)
| SScale (x : float) (a : sym)
| SGetitem (a : sym) (k : nat)
| SSpin (label : string) (kw : spin_kw)
| SIkron (op : sym) (dims : list (list nat)) (inds : list coord)
| SReal (a : sym)
| SDense (a : sym)
| SEigvals (H : sym) (k : nat)
| SEigvecs (H : sym) (k : nat)
| SExpec (a b : sym)
| SPartialTrace (p : sym) (dims : list (list nat)) (keep : list coord)
| SPurify (a : sym)
| SMutinf (a : sym)
| SCorrelation (A B : sym) (sysa sysb : nat) (dims : list nat) (p : sym).

#[export] Instance Quimb_sym : Quimb sym := {
  py_int0 := SInt0;
  py_add := SAdd;
  py_scale := SScale;
  py_getitem := SGetitem;
  spin_operator := SSpin;
  ikron := SIkron;
  isreal := fun _ => true;
  real_part := SReal;
  qarray_dense := SDense;
  eigh := fun H k => (SEigvals H k, SEigvecs H k);
  expec := SExpec;
  partial_trace := SPartialTrace;
  purify := SPurify;
  mutinf := SMutinf;
  correlation_precomp := SCorrelation
}.

(** A recording implementation of the second interface. It computes no
    numbers: [item] of anything is [0.0]. *)
Inductive tsym : Type :=
| TS_ham_heis (L : nat) (sparse cyclic : bool)
| TS_groundstate (H : tsym)
| TS_Dense1D (x : tsym)
| TS_MPS_rand_state (L bond_dim : nat) (cyclic : bool)
| TS_apply_to_arrays (x : tsym) (fn : array_fn)
| TS_matmul (a b : tsym)
| TS_pow_int (x : tsym) (k : nat)
| TS_pow_float (x : tsym) (e : float)
| TS_neg (x : tsym)
| TS_div (x y : tsym)
| TS_idiv (x y : tsym)
| TS_Adam (x : tsym) (lr : float)
| TS_zero_grad (opt x : tsym)
| TS_backward (loss x : tsym)
| TS_step_optimizer (opt x : tsym)
| TS_step_tensors (opt x : tsym)
| TS_data_type (x : tsym) (k : nat).

#[export] Instance TorchMPS_tsym : TorchMPS tsym := {
  ham_heis := TS_ham_heis;
  groundstate := TS_groundstate;
  Dense1D := TS_Dense1D;
  MPS_rand_state := TS_MPS_rand_state;
  apply_to_arrays := TS_apply_to_arrays;
  tn_matmul := TS_matmul;
  t_pow_int := TS_pow_int;
  t_pow_float := TS_pow_float;
  t_neg := TS_neg;
  t_div := TS_div;
  tn_idiv := TS_idiv;
  t_item := fun _ => 0%float;
  Adam := TS_Adam;
  zero_grad := TS_zero_grad;
  backward := TS_backward;
  adam_step := fun opt x => (TS_step_optimizer opt x, TS_step_tensors opt x);
  data_type := TS_data_type
}.

(** ** The order of the statements and the origin of the functions *)

Fixpoint nondecreasing (l : list nat) : bool :=
  match l with
  | a :: (b :: _) as l' => (a <=? b) && nondecreasing l'
  | _ => true
  end.

(** The phases follow one another as import, build, solve, optimise or
    observe, print or plot. *)
Definition in_stated_order (ps : list phase) : bool :=
  nondecreasing (map phase_rank ps).

(** The notebook runs to its end: every name a statement reads or calls
    has been bound by an earlier statement. *)
Definition runs {V : Type} (nb : notebook V) : Prop :=
  exists g, run nb = Some g.

Definition runs_in_stated_order {V : Type} (nb : notebook V) : Prop :=
  in_stated_order (phases nb) = true /\ runs nb.

(** What comes before the call of the solver, and what after it. *)
Definition before_solver (p : phase) : bool :=
  match p with
  | ImportLib | BuildHam | Output => true
  | _ => false
  end.

Definition after_solver (p : phase) : bool :=
  match p with
  | ImportLib | BuildState | OptimizeMPS | Observe | Output => true
  | _ => false
  end.

(** The first statement is an import, the last one an output, and there
    is one call of the solver: the Hamiltonian is built before it, the
    states, the optimisation and the observables come after it. *)
Definition solver_in_the_middle (ps : list phase) : Prop :=
  exists pre post,
    ps = ImportLib :: pre ++ Solve :: post ++ [Output]
    /\ forallb before_solver pre = true
    /\ forallb after_solver post = true.

(** Some output is followed by a statement that is not an output. *)
Definition output_interleaved (ps : list phase) : Prop :=
  exists l1 p l2, ps = l1 ++ Output :: p :: l2 /\ p <> Output.



(** The names of a kernel that are bound by a [def]. *)
Definition defined_names {V : Type} (is_def : V -> bool) (g : globals V)
  : list string :=
  map fst (filter (fun xv => is_def (snd xv)) g).


(** All of these names are bound, none of them by a [def]. *)
Definition bound_not_defined {V : Type} (is_def : V -> bool)
    (g : globals V) (xs : list string) : bool :=
  forallb
    (fun x =>
       match lookup x g with
       | Some v => negb (is_def v)
       | None => false
       end)
    xs.

Section Values_of_the_runs.

Context {obj : Type} {Q : Quimb obj} {tobj : Type} {T : TorchMPS tobj}.

(** The Hamiltonian the 2D notebook passes to the solver: what
    [ham_heis_2D(4, 5, cyclic=False)] returns in In [3], the sum of its
    terms through [H.real] where [isreal(H)], and the term In [4] adds. *)
Definition ex_2d_H : obj :=
  py_add (to_obj
            (real_if_real (py_sum (all_terms 4 5 1%float 0%float false))))
         (py_scale 0x1.999999999999ap-3%float
            (ikron (spin_operator "Z"%string (kw_sparse true))
                   (dims_2D 4 5) [(1, 2)])).

(** The ground state of the optimisation notebook, and the states and the
    optimiser its loop starts from: In [2] to In [5]. *)
Definition ex_torch_gs : tobj := groundstate (ham_heis 16 true true).

Definition ex_torch_target : tobj :=
  apply_to_arrays (Dense1D ex_torch_gs) fn_torch_tensor.

Definition ex_torch_mps0 : tobj :=
  apply_to_arrays (MPS_rand_state 16 32 true) fn_tensor_requires_grad.

Definition ex_torch_opt0 : tobj :=
  Adam ex_torch_mps0 0x1.47ae147ae147bp-7%float.

End Values_of_the_runs.

(** ** Counting and transposing bonds *)

(** The pairs of a list that start at site [s], and those that end
    there. *)
Definition pairs_from (s : coord) (l : list bond) : list bond :=
  filter (fun p => coord_eqb (fst p) s) l.

Definition pairs_into (s : coord) (l : list bond) : list bond :=
  filter (fun p => coord_eqb (snd p) s) l.

(** A site and a bond of the transposed lattice. *)
Definition swap_coord (s : coord) : coord := (snd s, fst s).

Definition swap_bond (p : bond) : bond :=
  (swap_coord (fst p), swap_coord (snd p)).

(** * Properties *)

(** ** Facts on sites *)

Lemma in_range (n i : nat) : In i (range n) <-> i < n.
Proof. unfold range. rewrite in_seq. lia. Qed.

Lemma in_sites (n m i j : nat) : In (i, j) (sites n m) <-> i < n /\ j < m.
Proof. unfold sites. now rewrite in_prod_iff, !in_range. Qed.

Lemma length_sites (n m : nat) : length (sites n m) = n * m.
Proof.
  unfold sites, range.
  etransitivity; [apply length_prod | now rewrite !length_seq].
Qed.

(** The loop body of [gen_pairs] runs only at sites of a lattice with
    [n <> 0] and [m <> 0]: the two [%] never divide by zero. *)
Lemma sites_nonzero (n m : nat) (s : coord) :
  In s (sites n m) -> n <> 0 /\ m <> 0.
Proof. destruct s as [i j]. rewrite in_sites. lia. Qed.

Lemma NoDup_list_prod {A B : Type} (l : list A) (l' : list B) :
  NoDup l -> NoDup l' -> NoDup (list_prod l l').
Proof.
  intros Hl Hl'. induction Hl as [|a l Ha Hl IH]; simpl.
  - constructor.
  - apply NoDup_app.
    + apply Finite.Injective_map_NoDup; [ | exact Hl'].
      intros x y Hxy. now inversion Hxy.
    + exact IH.
    + intros [a' b] Hin1 Hin2.
      apply in_map_iff in Hin1. destruct Hin1 as [b' [Heq _]].
      inversion Heq; subst.
      apply in_prod_iff in Hin2. now destruct Hin2.
Qed.

Lemma NoDup_sites (n m : nat) : NoDup (sites n m).
Proof. apply NoDup_list_prod; apply seq_NoDup. Qed.

(** [(i + 1) % n] for a row index of the lattice. *)
Lemma succ_mod (n i : nat) :
  i < n -> (i + 1) mod n = if i + 1 =? n then 0 else i + 1.
Proof.
  intros Hi. destruct (Nat.eqb_spec (i + 1) n) as [E | E].
  - rewrite E. apply Nat.Div0.mod_same.
  - apply Nat.mod_small. lia.
Qed.

(** ** Facts on [gen_pairs] *)

Lemma in_pairs_at (n m : nat) (c : bool) (i j : nat) (p : bond) :
  In p (pairs_at n m c (i, j)) <->
  (p = ((i, j), ((i + 1) mod n, j)) /\ (c = true \/ (i + 1) mod n <> 0))
  \/ (p = ((i, j), (i, (j + 1) mod m)) /\ (c = true \/ (j + 1) mod m <> 0)).
Proof.
  unfold pairs_at. rewrite in_app_iff.
  destruct c; simpl.
  - intuition (try congruence; auto).
  - destruct (Nat.eqb_spec ((i + 1) mod n) 0) as [E1 | E1];
    destruct (Nat.eqb_spec ((j + 1) mod m) 0) as [E2 | E2]; simpl;
      intuition (try congruence; auto).
Qed.

Lemma in_gen_pairs (n m : nat) (c : bool) (p : bond) :
  In p (gen_pairs n m c) <->
  exists i j, i < n /\ j < m /\
    ((p = ((i, j), ((i + 1) mod n, j)) /\ (c = true \/ (i + 1) mod n <> 0))
     \/ (p = ((i, j), (i, (j + 1) mod m))
         /\ (c = true \/ (j + 1) mod m <> 0))).
Proof.
  unfold gen_pairs. rewrite in_flat_map. split.
  - intros [[i j] [Hs Hp]]. apply in_sites in Hs.
    apply in_pairs_at in Hp. exists i, j. tauto.
  - intros [i [j [Hi [Hj Hp]]]]. exists (i, j). split.
    + apply in_sites. lia.
    + apply in_pairs_at. exact Hp.
Qed.

(** Without wraparound a bond goes one row up or one column right, and
    stays inside the lattice. *)
Lemma in_gen_pairs_open (n m : nat) (a b : coord) :
  In (a, b) (gen_pairs n m false) <->
  (b = (fst a + 1, snd a) /\ fst a + 1 < n /\ snd a < m)
  \/ (b = (fst a, snd a + 1) /\ fst a < n /\ snd a + 1 < m).
Proof.
  rewrite in_gen_pairs. split.
  - intros [i [j [Hi [Hj H]]]].
    rewrite (succ_mod n i Hi), (succ_mod m j Hj) in H.
    destruct H as [[E D] | [E D]]; inversion E; subst; clear E; simpl.
    + destruct (Nat.eqb_spec (i + 1) n) as [En | En].
      * destruct D; [discriminate | congruence].
      * left. split; [reflexivity | lia].
    + destruct (Nat.eqb_spec (j + 1) m) as [Em | Em].
      * destruct D; [discriminate | congruence].
      * right. split; [reflexivity | lia].
  - destruct a as [i j]; simpl.
    intros [[E [Hi Hj]] | [E [Hi Hj]]]; exists i, j;
      (split; [lia | split; [lia | ]]).
    + left. rewrite (Nat.mod_small (i + 1) n) by lia.
      split; [now subst | right; lia].
    + right. rewrite (Nat.mod_small (j + 1) m) by lia.
      split; [now subst | right; lia].
Qed.

(** A list built site by site has no duplicates when each site's part has
    none and every element remembers the site it comes from. *)
Lemma NoDup_flat_map_key {A B : Type} (f : A -> list B) (key : B -> A)
    (l : list A) :
  NoDup l ->
  (forall x, In x l -> NoDup (f x)) ->
  (forall x y, In x l -> In y (f x) -> key y = x) ->
  NoDup (flat_map f l).
Proof.
  intros Hl. induction Hl as [|a l Ha Hl IH]; intros Hf Hk; simpl.
  - constructor.
  - apply NoDup_app.
    + apply Hf. now left.
    + apply IH; intros; [apply Hf | apply Hk]; simpl; auto.
    + intros y Hy1 Hy2. apply in_flat_map in Hy2.
      destruct Hy2 as [x [Hx Hy2]].
      assert (key y = a) by (apply Hk; simpl; auto).
      assert (key y = x) by (apply Hk; simpl; auto).
      congruence.
Qed.

Lemma pairs_at_fst (n m : nat) (c : bool) (s : coord) (p : bond) :
  In p (pairs_at n m c s) -> fst p = s.
Proof.
  destruct s as [i j]. rewrite in_pairs_at.
  intros [[E _] | [E _]]; now subst.
Qed.

Lemma NoDup_two_opt {A : Type} (c1 c2 : bool) (x y : A) :
  (c1 = true -> c2 = true -> x <> y) ->
  NoDup ((if c1 then [x] else []) ++ (if c2 then [y] else [])).
Proof.
  intros H. destruct c1, c2; simpl; repeat constructor; simpl; auto.
  intros [E | []]. now apply H.
Qed.

(** [(i + 1) % n] differs from [i] as soon as there are two rows. *)
Lemma succ_mod_neq (n i : nat) : 2 <= n -> i < n -> (i + 1) mod n <> i.
Proof.
  intros Hn Hi. rewrite (succ_mod n i Hi).
  destruct (Nat.eqb_spec (i + 1) n); lia.
Qed.

Lemma NoDup_pairs_at (n m : nat) (c : bool) (i j : nat) :
  i < n -> j < m -> c = false \/ 2 <= n \/ 2 <= m ->
  NoDup (pairs_at n m c (i, j)).
Proof.
  intros Hi Hj Hc. unfold pairs_at. apply NoDup_two_opt.
  intros H1 H2 E. inversion E as [[Ea Er]].
  destruct Hc as [Hc | [Hc | Hc]].
  - subst c. simpl in H1. rewrite (succ_mod n i Hi) in *.
    destruct (Nat.eqb_spec (i + 1) n); [discriminate | lia].
  - now apply (succ_mod_neq n i).
  - symmetry in Er. now apply (succ_mod_neq m j).
Qed.

(** With open boundaries, or on a lattice that has two rows or two columns,
    the generator never yields the same pair twice. *)
Lemma NoDup_gen_pairs (n m : nat) (c : bool) :
  c = false \/ 2 <= n \/ 2 <= m -> NoDup (gen_pairs n m c).
Proof.
  intros Hc. unfold gen_pairs.
  apply (NoDup_flat_map_key _ fst).
  - apply NoDup_sites.
  - intros [i j] Hs. apply in_sites in Hs.
    apply NoDup_pairs_at; tauto.
  - intros s p _. apply pairs_at_fst.
Qed.

(** *** The bonds of the open lattice, listed by direction *)

Lemma in_vertical_bonds (n m : nat) (a b : coord) :
  In (a, b) (vertical_bonds n m) <->
  b = (fst a + 1, snd a) /\ fst a + 1 < n /\ snd a < m.
Proof.
  unfold vertical_bonds. rewrite in_map_iff. split.
  - intros [[i j] [E Hs]]. apply in_sites in Hs.
    inversion E; subst; simpl. split; [reflexivity | lia].
  - destruct a as [i j]; simpl. intros [E H]. exists (i, j). split.
    + now subst.
    + apply in_sites. lia.
Qed.

Lemma in_horizontal_bonds (n m : nat) (a b : coord) :
  In (a, b) (horizontal_bonds n m) <->
  b = (fst a, snd a + 1) /\ fst a < n /\ snd a + 1 < m.
Proof.
  unfold horizontal_bonds. rewrite in_map_iff. split.
  - intros [[i j] [E Hs]]. apply in_sites in Hs.
    inversion E; subst; simpl. split; [reflexivity | lia].
  - destruct a as [i j]; simpl. intros [E H]. exists (i, j). split.
    + now subst.
    + apply in_sites. lia.
Qed.

Lemma in_nn_bonds (n m : nat) (p : bond) :
  In p (nn_bonds n m) <-> In p (gen_pairs n m false).
Proof.
  destruct p as [a b]. unfold nn_bonds.
  rewrite in_app_iff, in_vertical_bonds, in_horizontal_bonds.
  now rewrite in_gen_pairs_open.
Qed.

Lemma NoDup_nn_bonds (n m : nat) : NoDup (nn_bonds n m).
Proof.
  unfold nn_bonds. apply NoDup_app.
  - apply Finite.Injective_map_NoDup; [ | apply NoDup_sites].
    intros x y E. now inversion E.
  - apply Finite.Injective_map_NoDup; [ | apply NoDup_sites].
    intros x y E. now inversion E.
  - intros [a b] Hv Hh.
    apply in_vertical_bonds in Hv. apply in_horizontal_bonds in Hh.
    destruct Hv as [Ev _], Hh as [Eh _]. rewrite Ev in Eh.
    inversion Eh. lia.
Qed.

Lemma length_nn_bonds (n m : nat) :
  length (nn_bonds n m) = n * (m - 1) + (n - 1) * m.
Proof.
  unfold nn_bonds, vertical_bonds, horizontal_bonds.
  rewrite length_app, !length_map, !length_sites. lia.
Qed.

(** The generator enumerates the nearest-neighbour pairs of the open
    lattice, in another order. *)
Lemma gen_pairs_open_perm (n m : nat) :
  Permutation (gen_pairs n m false) (nn_bonds n m).
Proof.
  apply NoDup_Permutation.
  - apply NoDup_gen_pairs. now left.
  - apply NoDup_nn_bonds.
  - intros p. symmetry. apply in_nn_bonds.
Qed.

Lemma length_gen_pairs_open (n m : nat) :
  length (gen_pairs n m false) = n * (m - 1) + (n - 1) * m.
Proof.
  rewrite (Permutation_length (gen_pairs_open_perm n m)).
  apply length_nn_bonds.
Qed.

(** *** Periodic against open boundaries *)

Lemma is_wrap_spec (n m : nat) (i j i' j' : nat) :
  is_wrap n m ((i, j), (i', j')) = true <->
  (i = n - 1 /\ i' = 0 /\ j = j') \/ (j = m - 1 /\ j' = 0 /\ i = i').
Proof.
  unfold is_wrap.
  rewrite orb_true_iff, !andb_true_iff, !Nat.eqb_eq. tauto.
Qed.

Lemma succ_mod_zero (n i : nat) : i < n -> ((i + 1) mod n = 0 <-> i = n - 1).
Proof.
  intros Hi. rewrite (succ_mod n i Hi).
  destruct (Nat.eqb_spec (i + 1) n); lia.
Qed.

Lemma succ_mod_fix (n i : nat) : i < n -> (i + 1) mod n = i -> n = 1.
Proof.
  intros Hi. rewrite (succ_mod n i Hi).
  destruct (Nat.eqb_spec (i + 1) n); lia.
Qed.

(** At a site of the lattice, the pair to the row above wraps exactly when
    [above == 0], and the pair to the right exactly when [right == 0]. *)
Lemma is_wrap_above (n m i j : nat) :
  i < n -> j < m ->
  is_wrap n m ((i, j), ((i + 1) mod n, j)) = ((i + 1) mod n =? 0).
Proof.
  intros Hi Hj. apply eq_true_iff_eq.
  rewrite is_wrap_spec, Nat.eqb_eq, (succ_mod_zero n i Hi). split.
  - intros [[E _] | [_ [_ E]]]; [exact E | ].
    symmetry in E. apply (succ_mod_fix n i Hi) in E. lia.
  - intros E. left. auto.
Qed.

Lemma is_wrap_right (n m i j : nat) :
  i < n -> j < m ->
  is_wrap n m ((i, j), (i, (j + 1) mod m)) = ((j + 1) mod m =? 0).
Proof.
  intros Hi Hj. apply eq_true_iff_eq.
  rewrite is_wrap_spec, Nat.eqb_eq, (succ_mod_zero m j Hj). split.
  - intros [[_ [_ E]] | [E _]]; [ | exact E].
    symmetry in E. apply (succ_mod_fix m j Hj) in E. lia.
  - intros E. right. auto.
Qed.

Lemma pairs_at_open_filter (n m i j : nat) :
  i < n -> j < m ->
  pairs_at n m false (i, j)
  = filter (fun p => negb (is_wrap n m p)) (pairs_at n m true (i, j)).
Proof.
  intros Hi Hj. unfold pairs_at. cbn [orb app filter].
  rewrite (is_wrap_above n m i j Hi Hj), (is_wrap_right n m i j Hi Hj).
  destruct ((i + 1) mod n =? 0), ((j + 1) mod m =? 0); reflexivity.
Qed.

Lemma flat_map_ext_in {A B : Type} (f g : A -> list B) (l : list A) :
  (forall x, In x l -> f x = g x) -> flat_map f l = flat_map g l.
Proof.
  induction l as [|a l IH]; intros H; simpl.
  - reflexivity.
  - rewrite (H a) by (now left). f_equal. apply IH.
    intros x Hx. apply H. now right.
Qed.

Lemma filter_flat_map {A B : Type} (p : B -> bool) (f : A -> list B)
    (l : list A) :
  filter p (flat_map f l) = flat_map (fun x => filter p (f x)) l.
Proof.
  induction l as [|a l IH]; simpl.
  - reflexivity.
  - now rewrite filter_app, IH.
Qed.

(** Dropping [cyclic] removes the wraparound pairs and nothing else, and
    keeps the order of what remains. *)
Lemma gen_pairs_open_filter (n m : nat) :
  gen_pairs n m false
  = filter (fun p => negb (is_wrap n m p)) (gen_pairs n m true).
Proof.
  unfold gen_pairs. rewrite filter_flat_map.
  apply flat_map_ext_in. intros [i j] Hs. apply in_sites in Hs.
  apply pairs_at_open_filter; tauto.
Qed.

Lemma in_wrap_pairs (n m : nat) (p : bond) :
  In p (wrap_pairs n m) <->
  (exists j, j < m /\ p = ((n - 1, j), (0, j)))
  \/ (exists i, i < n /\ p = ((i, m - 1), (i, 0))).
Proof.
  unfold wrap_pairs. rewrite in_app_iff, !in_map_iff.
  split; (intros [[k [H1 H2]] | [k [H1 H2]]]; [left | right]; exists k);
    rewrite ?in_range in *; auto.
Qed.

Lemma in_gen_pairs_wrap (n m : nat) (p : bond) :
  1 <= n -> 1 <= m ->
  (In p (gen_pairs n m true) /\ is_wrap n m p = true)
  <-> In p (wrap_pairs n m).
Proof.
  intros Hn Hm. rewrite in_gen_pairs, in_wrap_pairs. split.
  - intros [[i [j [Hi [Hj H]]]] W].
    destruct H as [[E _] | [E _]]; subst p.
    + rewrite (is_wrap_above n m i j Hi Hj), Nat.eqb_eq in W.
      left. exists j. split; [exact Hj | ]. rewrite W.
      apply (succ_mod_zero n i Hi) in W. now subst i.
    + rewrite (is_wrap_right n m i j Hi Hj), Nat.eqb_eq in W.
      right. exists i. split; [exact Hi | ]. rewrite W.
      apply (succ_mod_zero m j Hj) in W. now subst j.
  - intros [[j [Hj E]] | [i [Hi E]]]; subst p.
    + assert (Hz : (n - 1 + 1) mod n = 0)
        by (apply succ_mod_zero; lia).
      split.
      * exists (n - 1), j. split; [lia | split; [lia | ]].
        left. rewrite Hz. auto.
      * apply is_wrap_spec. left. auto.
    + assert (Hz : (m - 1 + 1) mod m = 0)
        by (apply succ_mod_zero; lia).
      split.
      * exists i, (m - 1). split; [lia | split; [lia | ]].
        right. rewrite Hz. auto.
      * apply is_wrap_spec. right. auto.
Qed.

Lemma NoDup_wrap_pairs (n m : nat) : 2 <= n -> NoDup (wrap_pairs n m).
Proof.
  intros Hn. unfold wrap_pairs. apply NoDup_app.
  - apply Finite.Injective_map_NoDup; [ | apply seq_NoDup].
    intros x y E. now inversion E.
  - apply Finite.Injective_map_NoDup; [ | apply seq_NoDup].
    intros x y E. now inversion E.
  - intros p H1 H2. apply in_map_iff in H1. apply in_map_iff in H2.
    destruct H1 as [j [E1 _]], H2 as [i [E2 _]]. subst p.
    inversion E2. lia.
Qed.

Lemma filter_split_perm {A : Type} (f : A -> bool) (l : list A) :
  Permutation l (filter (fun x => negb (f x)) l ++ filter f l).
Proof.
  induction l as [|a l IH]; simpl.
  - constructor.
  - destruct (f a); simpl.
    + now apply Permutation_cons_app.
    + now constructor.
Qed.

(** With periodic boundaries the generator yields the pairs of the open
    lattice and the wraparound pairs, each once. *)
Lemma gen_pairs_cyclic_perm (n m : nat) :
  2 <= n -> 1 <= m ->
  Permutation (gen_pairs n m true) (gen_pairs n m false ++ wrap_pairs n m).
Proof.
  intros Hn Hm.
  rewrite (filter_split_perm (is_wrap n m) (gen_pairs n m true)) at 1.
  rewrite <- gen_pairs_open_filter.
  apply Permutation_app_head. apply NoDup_Permutation.
  - apply NoDup_filter, NoDup_gen_pairs. auto.
  - now apply NoDup_wrap_pairs.
  - intros p. rewrite filter_In. apply in_gen_pairs_wrap; lia.
Qed.

(** *** Bonds of the open lattice are nearest neighbours *)

Lemma gen_pairs_open_adjacent (n m : nat) (a b : coord) :
  In (a, b) (gen_pairs n m false) ->
  In a (sites n m) /\ In b (sites n m) /\ adjacent a b /\ a <> b.
Proof.
  rewrite in_gen_pairs_open. destruct a as [i j]; simpl.
  unfold adjacent.
  intros [[E H] | [E H]]; subst b; rewrite !in_sites; simpl;
    (repeat split; try lia); intros E; inversion E; lia.
Qed.

Lemma adjacent_gen_pairs_open (n m : nat) (a b : coord) :
  In a (sites n m) -> In b (sites n m) -> adjacent a b ->
  In (a, b) (gen_pairs n m false) \/ In (b, a) (gen_pairs n m false).
Proof.
  destruct a as [i j], b as [i' j']. rewrite !in_sites, !in_gen_pairs_open.
  unfold adjacent. simpl.
  intros Ha Hb [[E [D | D]] | [E [D | D]]]; subst.
  - left. right. split; [reflexivity | lia].
  - right. right. split; [reflexivity | lia].
  - left. left. split; [reflexivity | lia].
  - right. left. split; [reflexivity | lia].
Qed.

(** A bond is yielded in one orientation only. *)
Lemma gen_pairs_open_oriented (n m : nat) (a b : coord) :
  In (a, b) (gen_pairs n m false) -> ~ In (b, a) (gen_pairs n m false).
Proof.
  rewrite !in_gen_pairs_open. destruct a as [i j], b as [i' j']; simpl.
  intros [[E _] | [E _]] [[E' _] | [E' _]];
    inversion E; inversion E'; lia.
Qed.

(** C3. On a lattice with at least two rows and two columns, [cyclic=True]
    makes [gen_pairs] yield in addition, for every column [j], the pair
    [((n-1, j), (0, j))] and, for every row [i], the pair
    [((i, m-1), (i, 0))]; [cyclic=False] yields the same pairs in the
    same order with exactly these left out. *)
Theorem gen_pairs_cyclic_wraparound (n m : nat) :
  2 <= n -> 2 <= m ->
  (forall j, j < m -> In ((n - 1, j), (0, j)) (gen_pairs n m true))
  /\ (forall i, i < n -> In ((i, m - 1), (i, 0)) (gen_pairs n m true))
  /\ (forall p, In p (wrap_pairs n m) -> ~ In p (gen_pairs n m false))
  /\ Permutation (gen_pairs n m true) (gen_pairs n m false ++ wrap_pairs n m)
  /\ gen_pairs n m false
     = filter (fun p => negb (is_wrap n m p)) (gen_pairs n m true)
  /\ (forall p, In p (gen_pairs n m true) ->
        (is_wrap n m p = true <-> In p (wrap_pairs n m))).
Proof.
  intros Hn Hm.
  assert (Hw : forall p, In p (wrap_pairs n m) ->
                 In p (gen_pairs n m true) /\ is_wrap n m p = true)
    by (intros p; apply in_gen_pairs_wrap; lia).
  split.
  { intros j Hj. apply Hw, in_wrap_pairs. left. now exists j. }
  split.
  { intros i Hi. apply Hw, in_wrap_pairs. right. now exists i. }
  split.
  { intros p Hp Hin. apply Hw in Hp. destruct Hp as [_ Hp].
    rewrite gen_pairs_open_filter in Hin. apply filter_In in Hin.
    rewrite Hp in Hin. now destruct Hin. }
  split; [apply gen_pairs_cyclic_perm; lia | ].
  split; [apply gen_pairs_open_filter | ].
  intros p Hp. rewrite <- (in_gen_pairs_wrap n m p) by lia. tauto.
Qed.

(** ** The Hamiltonian of the 2D notebook *)

Lemma py_chars_xyz :
  py_chars "xyz" = ["x"%string; "y"%string; "z"%string].
Proof. reflexivity. Qed.

Lemma map_list_prod {A B C : Type} (f : A * B -> C) (l : list A)
    (l' : list B) :
  map f (list_prod l l') = flat_map (fun x => map (fun y => f (x, y)) l') l.
Proof.
  induction l as [|a l IH]; simpl.
  - reflexivity.
  - now rewrite map_app, map_map, IH.
Qed.

Section Ham_heis_2D_facts.

Context {obj : Type} {Q : Quimb obj}.

Lemma length_pairs_ss (n m : nat) (cyclic : bool) :
  length (pairs_ss n m cyclic) = 3 * length (gen_pairs n m cyclic).
Proof.
  unfold pairs_ss.
  etransitivity; [apply length_prod | ].
  rewrite py_chars_xyz. simpl. lia.
Qed.

Lemma interactions_terms (n m : nat) (j : float) (cyclic : bool) :
  map (interactions n m j) (pairs_ss n m cyclic)
  = flat_map
      (fun pr : bond =>
         map (fun s => ikron (py_scale j (spin_operator s (kw_sparse true)))
                         (dims_2D n m) [fst pr; snd pr])
             ["x"%string; "y"%string; "z"%string])
      (gen_pairs n m cyclic).
Proof.
  unfold pairs_ss. rewrite map_list_prod, py_chars_xyz. reflexivity.
Qed.

Lemma length_all_terms (n m : nat) (j bz : float) (cyclic : bool) :
  length (all_terms n m j bz cyclic)
  = 3 * length (gen_pairs n m cyclic)
    + (if PrimFloat.eqb bz 0 then 0 else n * m).
Proof.
  unfold all_terms. rewrite length_app, length_map, length_pairs_ss.
  destruct (PrimFloat.eqb bz 0); simpl; [reflexivity | ].
  now rewrite length_map, length_sites.
Qed.

(** The sum of some terms is the fold of [+] over them from the [int]
    zero; the tail of the function leaves it in the library. *)
Lemma py_sum_terms (ts : list obj) :
  ts <> [] -> py_sum ts = Py_lib (fold_left py_add ts py_int0).
Proof. destruct ts as [|t ts]; [congruence | reflexivity]. Qed.

Lemma real_if_real_lib (o : obj) :
  real_if_real (Py_lib o) = Py_lib (if isreal o then real_part o else o).
Proof.
  unfold real_if_real, py_isreal. simpl. now destruct (isreal o).
Qed.

Lemma as_returned_lib (sparse : bool) (o : obj) :
  let o_real := if isreal o then real_part o else o in
  as_returned sparse (Py_lib o)
  = Some (Py_lib (if sparse then o_real else qarray_dense o_real)).
Proof.
  unfold as_returned. rewrite real_if_real_lib. now destruct sparse.
Qed.

(** On the [int] zero the tail returns it when [sparse], and raises at
    [H.A] when not. *)
Lemma as_returned_int0 (sparse : bool) :
  as_returned sparse (Py_int0 (obj := obj))
  = if sparse then Some Py_int0 else None.
Proof.
  unfold as_returned, real_if_real, py_isreal. simpl.
  destruct (isreal py_int0), sparse; reflexivity.
Qed.

Lemma ham_heis_2D_no_term (n m : nat) (j bz : float)
    (cyclic sparse : bool) :
  all_terms n m j bz cyclic = [] ->
  ham_heis_2D n m j bz cyclic sparse
  = if sparse then Some Py_int0 else None.
Proof.
  intros E. unfold ham_heis_2D. rewrite E. apply as_returned_int0.
Qed.

(** C1, where the code leaves it. On the open lattice of one site with
    [bz == 0.0] there is no pair and no field term, and [sum] returns the
    [int] zero it starts from. With [sparse=True] the function returns
    that [int]; with [sparse=False] it does not return the empty sum: it
    raises [AttributeError] at [H.A]. *)
Theorem ham_heis_2D_one_site (j bz : float) :
  PrimFloat.eqb bz 0 = true ->
  all_terms 1 1 j bz false = []
  /\ ham_heis_2D 1 1 j bz false false = None
  /\ ham_heis_2D 1 1 j bz false true = Some Py_int0.
Proof.
  intros Hbz.
  assert (E : all_terms 1 1 j bz false = []).
  { unfold all_terms. rewrite Hbz. reflexivity. }
  split; [exact E | ].
  split; now rewrite (ham_heis_2D_no_term 1 1 j bz false _ E).
Qed.

(** C8. With open boundaries [gen_pairs] yields
    [n*(m-1) + (n-1)*m] pairs, each of two distinct adjacent sites of
    the lattice, none twice (in either orientation); [pairs_ss] has three
    times as many elements. The terms that [sum] adds are that many
    interaction terms followed by the field terms, which are there (one
    per site) only when [bz != 0.0], and the Hamiltonian is the fold of
    [+] over these terms, in this order, from the [int] zero. The function
    ends with its tail on this sum. *)
Theorem gen_pairs_open_count (n m : nat) (j bz : float) :
  1 <= n -> 1 <= m ->
  let pairs := gen_pairs n m false in
  let k := n * (m - 1) + (n - 1) * m in
  let inter := map (interactions n m j) (pairs_ss n m false) in
  let fld :=
    if PrimFloat.eqb bz 0 then [] else map (fields n m bz) (sites n m) in
  length pairs = k
  /\ (forall a b, In (a, b) pairs ->
        a <> b /\ adjacent a b /\ In a (sites n m) /\ In b (sites n m))
  /\ NoDup pairs
  /\ (forall a b, In (a, b) pairs -> ~ In (b, a) pairs)
  /\ length (pairs_ss n m false) = 3 * k
  /\ all_terms n m j bz false = inter ++ fld
  /\ length inter = 3 * k
  /\ length fld = (if PrimFloat.eqb bz 0 then 0 else n * m)
  /\ py_sum (all_terms n m j bz false)
     = match inter ++ fld with
       | [] => Py_int0
       | _ :: _ => Py_lib (fold_left py_add fld
                             (fold_left py_add inter py_int0))
       end
  /\ forall sparse,
       ham_heis_2D n m j bz false sparse
       = as_returned sparse (py_sum (inter ++ fld)).
Proof.
  intros Hn Hm pairs k inter fld.
  assert (Hlen : length pairs = k) by apply length_gen_pairs_open.
  assert (Hall : all_terms n m j bz false = inter ++ fld).
  { unfold all_terms, inter, fld. now destruct (PrimFloat.eqb bz 0). }
  split; [exact Hlen | ].
  split; [intros a b H; apply gen_pairs_open_adjacent in H; tauto | ].
  split; [apply NoDup_gen_pairs; now left | ].
  split; [apply gen_pairs_open_oriented | ].
  split; [rewrite length_pairs_ss; fold pairs; now rewrite Hlen | ].
  split; [exact Hall | ].
  split; [unfold inter; rewrite length_map, length_pairs_ss; fold pairs;
          now rewrite Hlen | ].
  split.
  { unfold fld. destruct (PrimFloat.eqb bz 0); simpl; [reflexivity | ].
    now rewrite length_map, length_sites. }
  split.
  { rewrite Hall. destruct (inter ++ fld) as [|t ts] eqn:E; [reflexivity | ].
    rewrite <- E, <- fold_left_app, E. reflexivity. }
  intros sparse. unfold ham_heis_2D. now rewrite Hall.
Qed.

End Ham_heis_2D_facts.

(** *** Periodic boundaries on a lattice with a single row or column *)

Lemma gen_pairs_cyclic_distinct (n m : nat) (a b : coord) :
  2 <= n -> 2 <= m -> In (a, b) (gen_pairs n m true) -> a <> b.
Proof.
  intros Hn Hm Hin Eab. subst b. apply in_gen_pairs in Hin.
  destruct Hin as [i [j [Hi [Hj [[E _] | [E _]]]]]];
    injection E as E1 E2; rewrite E1 in E2; injection E2 as E3.
  - apply (succ_mod_neq n i Hn Hi). congruence.
  - apply (succ_mod_neq m j Hm Hj). congruence.
Qed.

Lemma gen_pairs_single_row (m i k : nat) :
  i < 1 -> k < m ->
  (i + 1) mod 1 = i /\ In ((i, k), (i, k)) (gen_pairs 1 m true).
Proof.
  intros Hi Hk. assert (i = 0) by lia. subst i.
  split; [reflexivity | ].
  apply in_gen_pairs. exists 0, k.
  split; [lia | split; [exact Hk | ]]. left. simpl. auto.
Qed.

Lemma gen_pairs_single_column (n i k : nat) :
  i < n -> k < 1 ->
  (k + 1) mod 1 = k /\ In ((i, k), (i, k)) (gen_pairs n 1 true).
Proof.
  intros Hi Hk. assert (k = 0) by lia. subst k.
  split; [reflexivity | ].
  apply in_gen_pairs. exists i, 0.
  split; [exact Hi | split; [lia | ]]. right. simpl. auto.
Qed.

Section Degenerate_terms.

Context {obj : Type} {Q : Quimb obj}.

(** Every yielded pair reaches [ikron] as its [inds], once per
    direction. *)
Lemma pair_in_all_terms (n m : nat) (j bz : float) (c : bool)
    (a b : coord) (s : string) :
  In (a, b) (gen_pairs n m c) -> In s (py_chars "xyz"%string) ->
  In (ikron (py_scale j (spin_operator s (kw_sparse true)))
            (dims_2D n m) [a; b])
     (all_terms n m j bz c).
Proof.
  intros Hp Hs. unfold all_terms. apply in_or_app. left.
  apply in_map_iff. exists ((a, b), s). split; [reflexivity | ].
  unfold pairs_ss. apply in_prod; assumption.
Qed.

(** C10. With [cyclic=True] on a lattice with one row, [(i + 1) % n] is
    [i] itself, [gen_pairs] yields the pair [((i, j), (i, j))] at every
    site and [ikron] is called with that repeated index for each
    direction; the same holds with one column. On a lattice with at
    least one site, every yielded pair has two distinct sites exactly
    when [n >= 2] and [m >= 2]. *)
Theorem gen_pairs_cyclic_degenerate (n m : nat) (j bz : float) :
  1 <= n -> 1 <= m ->
  (n = 1 -> forall i k, i < n -> k < m ->
     (i + 1) mod n = i
     /\ In ((i, k), (i, k)) (gen_pairs n m true)
     /\ forall s, In s (py_chars "xyz"%string) ->
          In (ikron (py_scale j (spin_operator s (kw_sparse true)))
                    (dims_2D n m) [(i, k); (i, k)])
             (all_terms n m j bz true))
  /\ (m = 1 -> forall i k, i < n -> k < m ->
        (k + 1) mod m = k
        /\ In ((i, k), (i, k)) (gen_pairs n m true)
        /\ forall s, In s (py_chars "xyz"%string) ->
             In (ikron (py_scale j (spin_operator s (kw_sparse true)))
                       (dims_2D n m) [(i, k); (i, k)])
                (all_terms n m j bz true))
  /\ ((forall a b, In (a, b) (gen_pairs n m true) -> a <> b)
      <-> 2 <= n /\ 2 <= m).
Proof.
  intros Hn Hm. split; [ | split].
  - intros E i k Hi Hk. subst n.
    destruct (gen_pairs_single_row m i k Hi Hk) as [H1 H2].
    split; [exact H1 | split; [exact H2 | ]].
    intros s Hs. now apply pair_in_all_terms.
  - intros E i k Hi Hk. subst m.
    destruct (gen_pairs_single_column n i k Hi Hk) as [H1 H2].
    split; [exact H1 | split; [exact H2 | ]].
    intros s Hs. now apply pair_in_all_terms.
  - split.
    + intros Hd.
      destruct (Nat.eq_dec n 1) as [E | E].
      * subst n. exfalso. apply (Hd (0, 0) (0, 0)); [ | reflexivity].
        apply gen_pairs_single_row; lia.
      * destruct (Nat.eq_dec m 1) as [E' | E'].
        -- subst m. exfalso. apply (Hd (0, 0) (0, 0)); [ | reflexivity].
           apply gen_pairs_single_column; lia.
        -- lia.
    + intros [H2n H2m] a b. now apply gen_pairs_cyclic_distinct.
Qed.

End Degenerate_terms.

(** ** Site-resolved magnetisation *)

Lemma py_listcomp_map {A B : Type} (f : A -> option B) (g : A -> B)
    (l : list A) :
  (forall x, In x l -> f x = Some (g x)) ->
  py_listcomp f l = Some (map g l).
Proof.
  induction l as [|a l IH]; intros H; simpl.
  - reflexivity.
  - rewrite (H a) by (now left).
    rewrite IH by (intros x Hx; apply H; now right).
    reflexivity.
Qed.

Lemma nth_error_range (n i : nat) : i < n -> nth_error (range n) i = Some i.
Proof.
  intros Hi. unfold range. rewrite nth_error_seq.
  destruct (Nat.ltb_spec i n); [reflexivity | lia].
Qed.

(** Indexing a grid built by two nested comprehensions over ranges. *)
Lemma py_index2_grid {A : Type} (f : nat -> nat -> A) (n m i j : nat) :
  i < n -> j < m ->
  py_index2 (map (fun i => map (fun j => f i j) (range m)) (range n)) i j
  = Some (f i j).
Proof.
  intros Hi Hj. unfold py_index2.
  rewrite nth_error_map, (nth_error_range n i Hi). simpl.
  now rewrite nth_error_map, (nth_error_range m j Hj).
Qed.

(** X1. The generator never raises [ZeroDivisionError]: with [%] as
    Python has it, it runs to its end and yields what [gen_pairs] lists,
    for all sizes of the lattice, zero included, and both boundary
    conditions. *)
Lemma gen_pairs_never_raises (n m : nat) (cyclic : bool) :
  gen_pairs_raising n m cyclic = Some (gen_pairs n m cyclic).
Proof.
  unfold gen_pairs_raising, gen_pairs.
  rewrite (py_listcomp_map _ (pairs_at n m cyclic)).
  - simpl. now rewrite flat_map_concat_map.
  - intros [i j] Hs. apply sites_nonzero in Hs. destruct Hs as [Hn Hm].
    unfold pairs_at_raising, pairs_at, py_mod.
    destruct (Nat.eqb_spec n 0) as [E | _]; [contradiction | ].
    destruct (Nat.eqb_spec m 0) as [E | _]; [contradiction | ].
    reflexivity.
Qed.

Section Magnetisation_facts.

Context {obj : Type} {Q : Quimb obj}.

(** C7. [m_ij] is an n-by-m grid, and its entry [(i, j)] is
    [expec(ikron(Sz, dims, [(i, j)]), gs)]: the expectation, in [gs], of
    the Z spin operator placed at the single site [(i, j)]. *)
Theorem m_ij_site_resolved (n m : nat) (gs : obj) :
  let Sz := spin_operator "Z"%string (kw_stype "coo"%string) in
  exists grid,
    m_ij (Sz_ij Sz (dims_2D n m) n m) gs n m = Some grid
    /\ length grid = n
    /\ (forall row, In row grid -> length row = m)
    /\ forall i j, i < n -> j < m ->
         py_index2 grid i j
         = Some (expec (ikron (spin_operator "Z"%string
                                 (kw_stype "coo"%string))
                              (dims_2D n m) [(i, j)])
                       gs).
Proof.
  intros Sz.
  exists (map (fun i =>
                 map (fun j => expec (ikron Sz (dims_2D n m) [(i, j)]) gs)
                     (range m))
              (range n)).
  split; [ | split; [ | split]].
  - unfold m_ij. apply py_listcomp_map. intros i Hi.
    apply py_listcomp_map. intros j Hj.
    apply in_range in Hi. apply in_range in Hj.
    unfold Sz_ij. now rewrite py_index2_grid.
  - unfold range. now rewrite length_map, length_seq.
  - intros row Hrow. apply in_map_iff in Hrow.
    destruct Hrow as [i [E _]]. subst row.
    unfold range. now rewrite length_map, length_seq.
  - intros i j Hi Hj.
    now rewrite (py_index2_grid
                   (fun i j => expec (ikron Sz (dims_2D n m) [(i, j)]) gs)).
Qed.

End Magnetisation_facts.

(** ** The optimisation loop *)

Lemma list_sum_const {A : Type} (c : nat) (l : list A) :
  list_sum (map (fun _ => c) l) = c * length l.
Proof.
  induction l as [|a l IH]; simpl; [lia | rewrite IH; lia].
Qed.

Section Optimise_facts.

Context {tobj : Type} {T : TorchMPS tobj}.

Lemma optimize_round_state (target : tobj) (s : opt_state tobj) (t : nat) :
  (cur_mps (optimize_round target s t), cur_opt (optimize_round target s t))
  = adam_update target (cur_mps s, cur_opt s).
Proof.
  reflexivity.
Qed.

Lemma optimize_round_calls (target : tobj) (s : opt_state tobj) (t : nat) :
  calls (optimize_round target s t)
  = calls s ++ [call_zero_grad;
                call_backward (neg_overlap target (cur_mps s));
                call_step].
Proof.
  reflexivity.
Qed.

Lemma optimize_round_printed (target : tobj) (s : opt_state tobj) (t : nat) :
  printed (optimize_round target s t)
  = printed s
    ++ (if t mod 10 =? 0
        then [(t, t_item (neg_overlap target (cur_mps s)))] else []).
Proof.
  reflexivity.
Qed.

Lemma optimize_succ (rounds : nat) (target : tobj) (s : opt_state tobj) :
  optimize (S rounds) target s
  = optimize_round target (optimize rounds target s) (S rounds).
Proof.
  unfold optimize. rewrite seq_S, fold_left_app. reflexivity.
Qed.

(** The loop after any number of rounds: the state reached, the calls made
    and the lines printed. *)
Lemma optimize_spec (rounds : nat) (target mps0 opt0 : tobj)
    (cs : list (torch_call tobj)) (ps : list (nat * float)) :
  let mps_at k := fst (Nat.iter k (adam_update target) (mps0, opt0)) in
  let s := optimize rounds target (mk_opt_state mps0 opt0 cs ps) in
  (cur_mps s, cur_opt s) = Nat.iter rounds (adam_update target) (mps0, opt0)
  /\ calls s
     = cs
       ++ flat_map
            (fun k =>
               [call_zero_grad;
                call_backward
                  (t_div (t_neg (t_pow_int (tn_matmul (mps_at k) target) 2))
                         (tn_matmul (mps_at k) (mps_at k)));
                call_step])
            (seq 0 rounds)
  /\ printed s
     = ps
       ++ flat_map
            (fun k =>
               if (S k) mod 10 =? 0
               then [(S k,
                      t_item
                        (t_div (t_neg (t_pow_int
                                         (tn_matmul (mps_at k) target) 2))
                               (tn_matmul (mps_at k) (mps_at k))))]
               else [])
            (seq 0 rounds).
Proof.
  intros mps_at.
  induction rounds as [|r [IHst [IHc IHp]]].
  - simpl. now rewrite !app_nil_r.
  - cbv zeta. rewrite optimize_succ, optimize_round_state,
      optimize_round_calls, optimize_round_printed.
    assert (Hm : cur_mps (optimize r target (mk_opt_state mps0 opt0 cs ps))
                 = mps_at r)
      by (unfold mps_at; now rewrite <- IHst).
    cbv zeta in IHst, IHc, IHp.
    rewrite IHst, IHc, IHp, Hm, seq_S, !flat_map_app.
    unfold neg_overlap. cbn [flat_map Nat.add Nat.iter nat_rect].
    rewrite !app_nil_r, !app_assoc. auto.
Qed.

(** C4. Each of the 100 rounds takes as its loss
    [-(mps @ target)**2 / (mps @ mps)] at the current tensors of [mps],
    with no conjugation, and calls [zero_grad], [backward] on that loss
    and [step], in this order and nothing else; the tensors and the
    optimiser at the end are those after 100 such updates. *)
Theorem optimize_loop_steps (target mps0 opt0 : tobj) :
  let s := optimize 100 target (mk_opt_state mps0 opt0 [] []) in
  let mps_at k := fst (Nat.iter k (adam_update target) (mps0, opt0)) in
  calls s
  = flat_map
      (fun k =>
         [call_zero_grad;
          call_backward
            (t_div (t_neg (t_pow_int (tn_matmul (mps_at k) target) 2))
                   (tn_matmul (mps_at k) (mps_at k)));
          call_step])
      (seq 0 100)
  /\ length (calls s) = 3 * 100
  /\ (cur_mps s, cur_opt s) = Nat.iter 100 (adam_update target) (mps0, opt0)
  /\ map fst (printed s) = [10; 20; 30; 40; 50; 60; 70; 80; 90; 100]
  /\ forall t x, In (t, x) (printed s) ->
       1 <= t
       /\ x = t_item (t_div (t_neg (t_pow_int
                                      (tn_matmul (mps_at (t - 1)) target) 2))
                            (tn_matmul (mps_at (t - 1)) (mps_at (t - 1)))).
Proof.
  intros s mps_at.
  generalize (optimize_spec 100 target mps0 opt0 [] []).
  fold s. fold mps_at. generalize s mps_at. clear s mps_at.
  intros s mps_at [Hst [Hc Hp]].
  rewrite app_nil_l in Hc, Hp.
  split; [exact Hc | ].
  split.
  { rewrite Hc, length_flat_map.
    rewrite (map_ext _ (fun _ => 3)) by reflexivity.
    now rewrite list_sum_const, length_seq. }
  split; [exact Hst | ].
  split.
  { rewrite Hp. reflexivity. }
  intros t x Hin. rewrite Hp in Hin. apply in_flat_map in Hin.
  destruct Hin as [k [_ Hin]].
  destruct (S k mod 10 =? 0); [ | contradiction].
  destruct Hin as [E | []]. inversion E; subst. split; [lia | ].
  replace (S k - 1) with k by lia. reflexivity.
Qed.

End Optimise_facts.

(** ** The notebooks as sequences of statements *)



Section Notebook_facts.

Context {obj : Type} {Q : Quimb obj} {tobj : Type} {T : TorchMPS tobj}.

Local Open Scope string_scope.

Lemma last_loss_optimize (r : nat) (target : tobj) (s0 : opt_state tobj) :
  last_loss (calls (optimize (S r) target s0))
  = Some (neg_overlap target (cur_mps (optimize r target s0))).
Proof.
  rewrite optimize_succ, optimize_round_calls. unfold last_loss.
  rewrite fold_left_app. reflexivity.
Qed.

(** The 2D notebook runs to its end; the Hamiltonian it builds, what the
    solver is called on and what the observables are computed from. *)
Lemma ex_2d_run :
  exists g,
    run ex_2d = Some g
    /\ get_obj "H" g = Some ex_2d_H
    /\ get_obj "ge" g = Some (fst (eigh ex_2d_H 1))
    /\ get_obj "gs" g = Some (snd (eigh ex_2d_H 1))
    /\ get_grid "m_ij" g
       = Some (map (fun i =>
                      map (fun j =>
                             expec (ikron (spin_operator "Z" (kw_stype "coo"))
                                          (dims_2D 4 5) [(i, j)])
                                   (snd (eigh ex_2d_H 1)))
                          (range 5))
                   (range 4))
    /\ get_grid "rho_ab_ij" g
       = Some (rho_ab_ij (snd (eigh ex_2d_H 1)) (dims_2D 4 5) (1, 2) 4 5)
    /\ lookup "ham_heis_2D" g = Some V_defined
    /\ defined_names is_defined g = ["ham_heis_2D"]
    /\ bound_not_defined is_defined g
         (filter (fun x => negb (String.eqb x "ham_heis_2D")) (called ex_2d))
       = true.
Proof.
  eexists. split; [reflexivity | ].
  repeat split; reflexivity.
Qed.

(** The optimisation notebook runs to its end; what the solver is called
    on, and what the loop starts from and leaves. *)
Lemma ex_torch_run :
  exists g,
    run ex_torch = Some g
    /\ get_tobj "H" g = Some (ham_heis 16 true true)
    /\ get_tobj "gs" g = Some ex_torch_gs
    /\ get_tobj "target" g = Some ex_torch_target
    /\ get_tobj "optimizer" g
       = Some (cur_opt (optimize 100 ex_torch_target
                          (mk_opt_state ex_torch_mps0 ex_torch_opt0 [] [])))
    /\ defined_names is_tdefined g = []
    /\ bound_not_defined is_tdefined g (called ex_torch) = true.
Proof.
  eexists. split.
  { unfold run.
    cbv - [optimize last_loss calls cur_mps cur_opt].
    rewrite last_loss_optimize.
    cbv - [optimize neg_overlap calls cur_mps cur_opt].
    reflexivity. }
  repeat split; reflexivity.
Qed.

(** A statement placed before the one that binds what it reads does not
    run: the solver before the Hamiltonian, a plot before the import of
    the plotting library. *)
Lemma solver_before_hamiltonian_raises :
  run [ex_2d_In1; ex_2d_In2; ex_2d_In5] = None
  /\ run [ex_2d_In1; ex_2d_In2; ex_2d_In3; ex_2d_In4; ex_2d_In5; ex_2d_In7;
          rev ex_2d_In8] = None.
Proof. split; reflexivity. Qed.

Lemma ex_2d_phases :
  phases ex_2d
  = ImportLib
      :: [ImportLib; ImportLib; ImportLib; BuildHam; BuildHam; BuildHam;
          Output; BuildHam; BuildHam]
      ++ Solve
      :: [Output; Observe; Observe; Observe; ImportLib; Output; Output;
          Observe; Observe; Observe; Output; Output; Observe; Observe;
          Observe; Output]
      ++ [Output].
Proof. reflexivity. Qed.

Lemma ex_torch_phases :
  phases ex_torch
  = ImportLib
      :: [ImportLib; ImportLib; ImportLib; BuildHam; BuildHam]
      ++ Solve
      :: [BuildState; BuildState; BuildState; BuildState; BuildState;
          OptimizeMPS; OptimizeMPS; OptimizeMPS; Output; Output; OptimizeMPS]
      ++ [Output].
Proof. reflexivity. Qed.

(** C6, as the code has it. Each notebook runs to its end, so that no
    statement uses a value that a later one produces. Its first statement
    is an import and its last one an output; it calls the solver once, on
    the Hamiltonian built before that call, and the states, the optimiser
    loop and the observables come after the call and are computed from the
    ground state it returned. The outputs do not all come last: some
    output is followed by a statement that is not an output. *)
Theorem notebooks_linear_sequence :
  (exists g,
     run ex_2d = Some g
     /\ get_obj "H" g = Some ex_2d_H
     /\ get_obj "gs" g = Some (snd (eigh ex_2d_H 1))
     /\ get_grid "m_ij" g
        = Some (map (fun i =>
                       map (fun j =>
                              expec
                                (ikron (spin_operator "Z" (kw_stype "coo"))
                                       (dims_2D 4 5) [(i, j)])
                                (snd (eigh ex_2d_H 1)))
                           (range 5))
                    (range 4))
     /\ get_grid "rho_ab_ij" g
        = Some (rho_ab_ij (snd (eigh ex_2d_H 1)) (dims_2D 4 5) (1, 2) 4 5))
  /\ solver_in_the_middle (phases ex_2d)
  /\ output_interleaved (phases ex_2d)
  /\ (exists g,
        run ex_torch = Some g
        /\ get_tobj "H" g = Some (ham_heis 16 true true)
        /\ get_tobj "gs" g = Some (groundstate (ham_heis 16 true true))
        /\ get_tobj "target" g = Some ex_torch_target
        /\ get_tobj "optimizer" g
           = Some (cur_opt (optimize 100 ex_torch_target
                              (mk_opt_state ex_torch_mps0 ex_torch_opt0
                                            [] []))))
  /\ solver_in_the_middle (phases ex_torch)
  /\ output_interleaved (phases ex_torch).
Proof.
  split.
  { destruct ex_2d_run as [g [H1 [H2 [_ [H3 [H4 [H5 _]]]]]]].
    exists g. tauto. }
  split.
  { rewrite ex_2d_phases. eexists. eexists.
    split; [reflexivity | split; reflexivity]. }
  split.
  { rewrite ex_2d_phases.
    exists [ImportLib; ImportLib; ImportLib; ImportLib; BuildHam; BuildHam;
            BuildHam],
           BuildHam,
           [BuildHam; Solve; Output; Observe; Observe; Observe; ImportLib;
            Output; Output; Observe; Observe; Observe; Output; Output;
            Observe; Observe; Observe; Output; Output].
    split; [reflexivity | discriminate]. }
  split.
  { destruct ex_torch_run as [g [H1 [H2 [H3 [H4 [H5 _]]]]]].
    exists g. tauto. }
  split.
  { rewrite ex_torch_phases. eexists. eexists.
    split; [reflexivity | split; reflexivity]. }
  rewrite ex_torch_phases.
  exists [ImportLib; ImportLib; ImportLib; ImportLib; BuildHam; BuildHam; Solve;
          BuildState; BuildState; BuildState; BuildState; BuildState;
          OptimizeMPS; OptimizeMPS; OptimizeMPS; Output],
         OptimizeMPS, [Output].
  split; [reflexivity | discriminate].
Qed.


End Notebook_facts.

(** ** Concrete runs *)

Lemma ham_heis_2D_one_site_witness :
  PrimFloat.eqb 0 0 = true
  /\ ham_heis_2D (Q := Quimb_sym) 1 1 1%float 0%float false false = None
  /\ ham_heis_2D (Q := Quimb_sym) 1 1 1%float 0%float false true
     = Some Py_int0.
Proof.
  assert (H0 : PrimFloat.eqb 0 0 = true) by reflexivity.
  split; [exact H0 | ].
  exact (proj2 (ham_heis_2D_one_site (Q := Quimb_sym) 1%float 0%float H0)).
Defined.

Lemma gen_pairs_open_count_witness :
  1 <= 1 /\ 1 <= 2
  /\ py_sum (all_terms (Q := Quimb_sym) 1 2 1%float 0%float false)
     = Py_lib
         (SAdd
            (SAdd
               (SAdd SInt0
                  (SIkron (SScale 1%float (SSpin "x" (kw_sparse true)))
                          [[2; 2]] [(0, 0); (0, 1)]))
               (SIkron (SScale 1%float (SSpin "y" (kw_sparse true)))
                       [[2; 2]] [(0, 0); (0, 1)]))
            (SIkron (SScale 1%float (SSpin "z" (kw_sparse true)))
                    [[2; 2]] [(0, 0); (0, 1)])).
Proof.
  assert (H1 : 1 <= 1) by lia. assert (H2 : 1 <= 2) by lia.
  split; [exact H1 | split; [exact H2 | ]].
  exact (proj1 (proj2 (proj2 (proj2 (proj2 (proj2 (proj2 (proj2 (proj2
           (gen_pairs_open_count (Q := Quimb_sym) 1 2 1%float 0%float
                                 H1 H2)))))))))).
Defined.

Lemma gen_pairs_cyclic_wraparound_witness :
  2 <= 2 /\ 2 <= 3
  /\ Permutation (gen_pairs 2 3 true) (gen_pairs 2 3 false ++ wrap_pairs 2 3).
Proof.
  assert (H1 : 2 <= 2) by lia. assert (H2 : 2 <= 3) by lia.
  split; [exact H1 | split; [exact H2 | ]].
  exact (proj1 (proj2 (proj2 (proj2
           (gen_pairs_cyclic_wraparound 2 3 H1 H2))))).
Defined.

Lemma gen_pairs_cyclic_degenerate_witness :
  1 <= 1 /\ 1 <= 2
  /\ In ((0, 1), (0, 1)) (gen_pairs 1 2 true).
Proof.
  assert (H1 : 1 <= 1) by lia. assert (H2 : 1 <= 2) by lia.
  split; [exact H1 | split; [exact H2 | ]].
  assert (Hi : 0 < 1) by lia. assert (Hk : 1 < 2) by lia.
  exact (proj1 (proj2
           (proj1 (gen_pairs_cyclic_degenerate (Q := Quimb_sym) 1 2
                     1%float 0%float H1 H2)
                  eq_refl 0 1 Hi Hk))).
Defined.

(** ** Where the stated order and the stated absence of local code fail *)

(** In both notebooks the phases are not in the stated order: the 2D
    notebook prints the rows of [dims] before it builds the Hamiltonian,
    and the optimisation notebook builds its states after the call of the
    solver. *)
Lemma notebooks_stated_order_fails :
  ~ runs_in_stated_order (ex_2d (Q := Quimb_sym))
  /\ ~ runs_in_stated_order (ex_torch (T := TorchMPS_tsym)).
Proof.
  split; intros [H _]; vm_compute in H; discriminate H.
Qed.



(** * Further properties of the notebook code *)

(** ** The lattice and its bonds *)

(** [dims = [[2] * m] * n] has the shape of the lattice: [dims[i][j]]
    is [2] at the sites [(i, j)] and raises [IndexError] at every other
    index. *)
Lemma dims_2D_index (n m i j : nat) :
  py_index2 (dims_2D n m) i j
  = if (i <? n) && (j <? m) then Some 2 else None.
Proof.
  unfold py_index2, dims_2D.
  destruct (Nat.ltb_spec i n) as [Hi | Hi].
  - rewrite (nth_error_repeat _ Hi).
    destruct (Nat.ltb_spec j m) as [Hj | Hj]; simpl.
    + now apply nth_error_repeat.
    + apply nth_error_None. now rewrite repeat_length.
  - simpl.
    replace (nth_error (repeat (repeat 2 m) n) i) with (@None (list nat));
      [reflexivity | ].
    symmetry. apply nth_error_None. now rewrite repeat_length.
Qed.

Lemma succ_mod_lt (n i : nat) : i < n -> (i + 1) mod n < n.
Proof. intros Hi. apply Nat.mod_upper_bound. lia. Qed.

(** X2. With open and with periodic boundaries alike, both coordinates of
    every pair that [gen_pairs] yields are sites of the lattice, so that
    every index handed to [ikron] addresses an entry of [dims]. *)
Theorem gen_pairs_in_lattice (n m : nat) (cyclic : bool) (a b : coord) :
  In (a, b) (gen_pairs n m cyclic) ->
  In a (sites n m) /\ In b (sites n m)
  /\ py_index2 (dims_2D n m) (fst a) (snd a) = Some 2
  /\ py_index2 (dims_2D n m) (fst b) (snd b) = Some 2.
Proof.
  intros Hin. apply in_gen_pairs in Hin.
  assert (Hs : (fst a < n /\ snd a < m) /\ (fst b < n /\ snd b < m)).
  { destruct Hin as [i [j [Hi [Hj [[E _] | [E _]]]]]];
      injection E as Ea Eb; subst a b; simpl;
      pose proof (succ_mod_lt n i Hi); pose proof (succ_mod_lt m j Hj);
      tauto. }
  destruct a as [ai aj], b as [bi bj]. simpl in Hs.
  destruct Hs as [[H1 H2] [H3 H4]].
  rewrite !in_sites, !dims_2D_index. simpl.
  apply Nat.ltb_lt in H1 as L1. apply Nat.ltb_lt in H2 as L2.
  apply Nat.ltb_lt in H3 as L3. apply Nat.ltb_lt in H4 as L4.
  rewrite L1, L2, L3, L4. simpl. tauto.
Qed.

Lemma length_pairs_at_cyclic (n m : nat) (s : coord) :
  length (pairs_at n m true s) = 2.
Proof. destruct s as [i j]. reflexivity. Qed.

(** With periodic boundaries every site yields its two pairs. *)
Lemma length_gen_pairs_cyclic (n m : nat) :
  length (gen_pairs n m true) = 2 * n * m.
Proof.
  unfold gen_pairs. rewrite length_flat_map.
  rewrite (map_ext _ (fun _ => 2)) by apply length_pairs_at_cyclic.
  rewrite list_sum_const, length_sites. lia.
Qed.

(** X4. On a periodic lattice with at least three rows and three columns
    no bond is yielded in both orientations: every bond enters the
    Hamiltonian once. *)
Theorem gen_pairs_cyclic_oriented (n m : nat) (a b : coord) :
  3 <= n -> 3 <= m ->
  In (a, b) (gen_pairs n m true) -> ~ In (b, a) (gen_pairs n m true).
Proof.
  intros Hn Hm Hab Hba.
  apply in_gen_pairs in Hab. apply in_gen_pairs in Hba.
  destruct Hab as [i [j [Hi [Hj Hab]]]].
  destruct Hba as [i' [j' [Hi' [Hj' Hba]]]].
  rewrite (succ_mod n i Hi), (succ_mod m j Hj) in Hab.
  rewrite (succ_mod n i' Hi'), (succ_mod m j' Hj') in Hba.
  destruct (Nat.eqb_spec (i + 1) n), (Nat.eqb_spec (j + 1) m),
    (Nat.eqb_spec (i' + 1) n), (Nat.eqb_spec (j' + 1) m);
    destruct Hab as [[E _] | [E _]]; destruct Hba as [[E' _] | [E' _]];
    injection E as Ea Eb; injection E' as Eb' Ea'; subst a b;
    injection Eb' as ? ?; injection Ea' as ? ?; lia.
Qed.

(** X5. On a periodic lattice with exactly two rows the pair of one column
    is yielded in both orientations, once going up and once wrapping
    around: the vertical bonds are summed twice. The same holds for the
    horizontal bonds of a lattice with exactly two columns. *)
Theorem gen_pairs_cyclic_two_rows (n m i j : nat) :
  i < n -> j < m ->
  (n = 2 ->
   In ((0, j), (1, j)) (gen_pairs n m true)
   /\ In ((1, j), (0, j)) (gen_pairs n m true))
  /\ (m = 2 ->
      In ((i, 0), (i, 1)) (gen_pairs n m true)
      /\ In ((i, 1), (i, 0)) (gen_pairs n m true)).
Proof.
  intros Hi Hj. split; intros E; subst; split; apply in_gen_pairs.
  - exists 0, j. split; [lia | split; [exact Hj | left; auto]].
  - exists 1, j. split; [lia | split; [exact Hj | left; auto]].
  - exists i, 0. split; [exact Hi | split; [lia | right; auto]].
  - exists i, 1. split; [exact Hi | split; [lia | right; auto]].
Qed.

(** *** Bonds at one site *)

Lemma coord_eqb_eq (a b : coord) : coord_eqb a b = true <-> a = b.
Proof.
  destruct a as [a1 a2], b as [b1 b2]. unfold coord_eqb. simpl.
  rewrite andb_true_iff, !Nat.eqb_eq. split.
  - intros [-> ->]. reflexivity.
  - intros E. injection E as -> ->. auto.
Qed.

Lemma coord_eqb_refl (a : coord) : coord_eqb a a = true.
Proof. now apply coord_eqb_eq. Qed.

Lemma length_filter_flat_map {A B : Type} (p : B -> bool)
    (f : A -> list B) (l : list A) :
  length (filter p (flat_map f l))
  = list_sum (map (fun x => length (filter p (f x))) l).
Proof. now rewrite filter_flat_map, length_flat_map. Qed.

Lemma list_sum_map_add {A : Type} (g h : A -> nat) (l : list A) :
  list_sum (map (fun x => g x + h x) l)
  = list_sum (map g l) + list_sum (map h l).
Proof. induction l as [|a l IH]; simpl; [reflexivity | rewrite IH; lia]. Qed.

Lemma list_sum_indicator {A : Type} (f : A -> bool) (l : list A) :
  list_sum (map (fun x => if f x then 1 else 0) l) = length (filter f l).
Proof.
  induction l as [|a l IH]; simpl; [reflexivity | ].
  destruct (f a); simpl; rewrite IH; reflexivity.
Qed.

(** A test that holds of at most one element of a list without
    duplicates selects one element or none. *)
Lemma length_filter_unique {A : Type} (f : A -> bool) (l : list A) :
  NoDup l ->
  (forall x y, In x l -> In y l -> f x = true -> f y = true -> x = y) ->
  length (filter f l) = if existsb f l then 1 else 0.
Proof.
  intros Hnd. induction Hnd as [|a l Ha Hnd IH]; intros Hu; simpl.
  - reflexivity.
  - assert (IH' : length (filter f l) = if existsb f l then 1 else 0).
    { apply IH. intros x y Hx Hy. apply Hu; now right. }
    destruct (f a) eqn:Hfa; simpl; [ | exact IH'].
    destruct (existsb f l) eqn:Hex; [ | now rewrite IH'].
    apply existsb_exists in Hex. destruct Hex as [y [Hy Hfy]].
    exfalso. apply Ha.
    rewrite (Hu a y); [exact Hy | now left | now right | exact Hfa
                      | exact Hfy].
Qed.

(** The row from which [(i + 1) % n] reaches row [i]. *)
Lemma succ_mod_pred (n i : nat) :
  i < n ->
  let i' := if i =? 0 then n - 1 else i - 1 in
  i' < n /\ (i' + 1) mod n = i.
Proof.
  intros Hi i'. subst i'.
  destruct (Nat.eqb_spec i 0) as [E | E].
  - split; [lia | ]. subst i. apply succ_mod_zero; lia.
  - split; [lia | ]. rewrite Nat.mod_small by lia. lia.
Qed.

Lemma succ_mod_inj (n i i' : nat) :
  i < n -> i' < n -> (i + 1) mod n = (i' + 1) mod n -> i = i'.
Proof.
  intros Hi Hi'. rewrite (succ_mod n i Hi), (succ_mod n i' Hi').
  destruct (Nat.eqb_spec (i + 1) n), (Nat.eqb_spec (i' + 1) n); lia.
Qed.

Lemma sites_count_one (n m : nat) (f : coord -> bool) (s : coord) :
  In s (sites n m) -> f s = true ->
  (forall t, In t (sites n m) -> f t = true -> t = s) ->
  length (filter f (sites n m)) = 1.
Proof.
  intros Hs Hfs Hu.
  rewrite length_filter_unique.
  - replace (existsb f (sites n m)) with true; [reflexivity | ].
    symmetry. apply existsb_exists. now exists s.
  - apply NoDup_sites.
  - intros x y Hx Hy Hfx Hfy. rewrite (Hu x Hx Hfx). symmetry.
    now apply Hu.
Qed.

(** X6. On a periodic lattice every site has four bonds, counted as they
    are summed: it is the first site of two of the pairs that [gen_pairs]
    yields and the second site of two. *)
Theorem gen_pairs_cyclic_degree (n m : nat) (s : coord) :
  In s (sites n m) ->
  length (pairs_from s (gen_pairs n m true)) = 2
  /\ length (pairs_into s (gen_pairs n m true)) = 2.
Proof.
  intros Hs. unfold pairs_from, pairs_into, gen_pairs.
  rewrite !length_filter_flat_map. split.
  - rewrite (map_ext _ (fun t => (if coord_eqb t s then 1 else 0)
                                 + (if coord_eqb t s then 1 else 0))).
    + rewrite list_sum_map_add, list_sum_indicator.
      rewrite (sites_count_one n m (fun t => coord_eqb t s) s Hs
                 (coord_eqb_refl s));
        [reflexivity | ].
      intros t _ E. now apply coord_eqb_eq.
    + intros [i j]. simpl. destruct (coord_eqb (i, j) s); reflexivity.
  - rewrite (map_ext _
               (fun t => (if coord_eqb ((fst t + 1) mod n, snd t) s
                          then 1 else 0)
                         + (if coord_eqb (fst t, (snd t + 1) mod m) s
                            then 1 else 0))).
    2:{ intros [i j]. simpl.
        destruct (coord_eqb ((i + 1) mod n, j) s),
          (coord_eqb (i, (j + 1) mod m) s); reflexivity. }
    rewrite list_sum_map_add, !list_sum_indicator.
    destruct s as [i j]. apply in_sites in Hs. destruct Hs as [Hi Hj].
    destruct (succ_mod_pred n i Hi) as [Hpi Epi].
    destruct (succ_mod_pred m j Hj) as [Hpj Epj].
    rewrite (sites_count_one n m _ (if i =? 0 then n - 1 else i - 1, j)),
      (sites_count_one n m _ (i, if j =? 0 then m - 1 else j - 1));
      try reflexivity.
    + apply in_sites. tauto.
    + apply coord_eqb_eq. simpl. now rewrite Epj.
    + intros [i' j'] Ht E. apply in_sites in Ht. apply coord_eqb_eq in E.
      simpl in E. injection E as E1 E2. subst i'. f_equal.
      apply (succ_mod_inj m); try tauto. now rewrite Epj.
    + apply in_sites. tauto.
    + apply coord_eqb_eq. simpl. now rewrite Epi.
    + intros [i' j'] Ht E. apply in_sites in Ht. apply coord_eqb_eq in E.
      simpl in E. injection E as E1 E2. subst j'. f_equal.
      apply (succ_mod_inj n); try tauto. now rewrite Epi.
Qed.

Lemma in_two_opt {A : Type} (c1 c2 : bool) (x y p : A) :
  In p ((if c1 then [x] else []) ++ (if c2 then [y] else []))
  <-> (c1 = true /\ p = x) \/ (c2 = true /\ p = y).
Proof.
  rewrite in_app_iff. destruct c1, c2; simpl;
    intuition (try discriminate; auto).
Qed.

Lemma length_two_opt {A : Type} (c1 c2 : bool) (x y : A) :
  length ((if c1 then [x] else []) ++ (if c2 then [y] else []))
  = (if c1 then 1 else 0) + (if c2 then 1 else 0).
Proof. destruct c1, c2; reflexivity. Qed.

(** X7. On the open lattice a site starts one pair for each neighbour it
    has above and to the right, and ends one pair for each neighbour below
    and to the left: it has as many bonds as it has neighbours in the
    lattice, two at a corner, three on an edge, four inside. *)
Theorem gen_pairs_open_degree (n m i j : nat) :
  i < n -> j < m ->
  length (pairs_from (i, j) (gen_pairs n m false))
  = (if i + 1 <? n then 1 else 0) + (if j + 1 <? m then 1 else 0)
  /\ length (pairs_into (i, j) (gen_pairs n m false))
     = (if 0 <? i then 1 else 0) + (if 0 <? j then 1 else 0).
Proof.
  intros Hi Hj.
  assert (Hnd : NoDup (gen_pairs n m false))
    by (apply NoDup_gen_pairs; now left).
  split.
  - rewrite <- (length_two_opt _ _ ((i, j), (i + 1, j))
                                   ((i, j), (i, j + 1))).
    apply Permutation_length, NoDup_Permutation.
    + now apply NoDup_filter.
    + apply NoDup_two_opt. intros _ _ E. injection E as E1 E2. lia.
    + intros [[ai aj] b]. unfold pairs_from.
      rewrite filter_In, in_two_opt, in_gen_pairs_open, coord_eqb_eq,
        !Nat.ltb_lt.
      simpl. split.
      * intros [[[Eb H] | [Eb H]] Ea]; injection Ea as -> ->; subst b;
          [left | right]; (split; [lia | reflexivity]).
      * intros [[H E] | [H E]]; injection E as -> -> ->;
          (split; [ | reflexivity]); [left | right];
          (split; [reflexivity | lia]).
  - rewrite <- (length_two_opt _ _ ((i - 1, j), (i, j))
                                   ((i, j - 1), (i, j))).
    apply Permutation_length, NoDup_Permutation.
    + now apply NoDup_filter.
    + apply NoDup_two_opt. intros H1 H2 E.
      apply Nat.ltb_lt in H1. injection E as E1 E2. lia.
    + intros [[ai aj] b]. unfold pairs_into.
      rewrite filter_In, in_two_opt, in_gen_pairs_open, coord_eqb_eq,
        !Nat.ltb_lt.
      simpl. split.
      * intros [[[Eb H] | [Eb H]] Ea]; subst b; injection Ea as E1 E2;
          subst; [left | right]; (split; [lia | ]);
          repeat f_equal; lia.
      * intros [[H E] | [H E]]; injection E as -> -> ->;
          (split; [ | reflexivity]); [left | right];
          (split; [f_equal; lia | lia]).
Qed.

(** *** The two axes *)

Lemma swap_bond_involutive (p : bond) : swap_bond (swap_bond p) = p.
Proof. destruct p as [[a1 a2] [b1 b2]]. reflexivity. Qed.

Lemma in_gen_pairs_swap (n m : nat) (c : bool) (p : bond) :
  In p (gen_pairs n m c) -> In (swap_bond p) (gen_pairs m n c).
Proof.
  rewrite !in_gen_pairs. intros [i [j [Hi [Hj H]]]].
  exists j, i. split; [exact Hj | split; [exact Hi | ]].
  destruct H as [[E C] | [E C]]; subst p; [right | left];
    (split; [reflexivity | exact C]).
Qed.

(** X8. [gen_pairs] treats rows and columns alike: the pairs of the
    m-by-n lattice are those of the n-by-m lattice with the two
    coordinates of every site exchanged, up to the order in which they are
    yielded. *)
Theorem gen_pairs_transpose (n m : nat) (cyclic : bool) :
  Permutation (map swap_bond (gen_pairs n m cyclic)) (gen_pairs m n cyclic).
Proof.
  assert (Hc : (cyclic = false \/ 2 <= n \/ 2 <= m)
               \/ (cyclic = true /\ n <= 1 /\ m <= 1))
    by (destruct cyclic; [ | now left; left];
        destruct (le_lt_dec 2 n); [now left; right; left | ];
        destruct (le_lt_dec 2 m); [now left; right; right | ];
        right; repeat split; lia).
  destruct Hc as [Hc | [-> [Hn Hm]]].
  - apply NoDup_Permutation.
    + apply Finite.Injective_map_NoDup; [ | now apply NoDup_gen_pairs].
      intros p q E. rewrite <- (swap_bond_involutive p), E.
      apply swap_bond_involutive.
    + apply NoDup_gen_pairs. tauto.
    + intros p. rewrite in_map_iff. split.
      * intros [q [E Hq]]. subst p. now apply in_gen_pairs_swap.
      * intros Hp. exists (swap_bond p).
        split; [apply swap_bond_involutive | now apply in_gen_pairs_swap].
  - destruct n as [|[|n]], m as [|[|m]]; try lia; apply Permutation_refl.
Qed.

(** ** The terms of the Hamiltonian *)

Section Ham_heis_2D_terms.

Context {obj : Type} {Q : Quimb obj}.

(** X3. With periodic boundaries every site yields its two pairs, whatever
    the size of the lattice: [gen_pairs] yields [2 * n * m] pairs, and
    the Hamiltonian is the sum of [6 * n * m] interaction terms and, when
    [bz != 0.0], of [n * m] field terms. *)
Theorem all_terms_cyclic_count (n m : nat) (j bz : float) :
  length (gen_pairs n m true) = 2 * n * m
  /\ length (pairs_ss n m true) = 6 * n * m
  /\ length (all_terms n m j bz true)
     = 6 * n * m + (if PrimFloat.eqb bz 0 then 0 else n * m).
Proof.
  rewrite length_all_terms, length_pairs_ss, length_gen_pairs_cyclic.
  repeat split; lia.
Qed.

(** X9. [sum] has nothing to add on an empty lattice and, with open
    boundaries and no field, on the lattice of one site, and in no other
    case. Then [H] is the [int] zero that [sum] starts from, and neither
    [spin_operator] nor [ikron] is called: with [sparse=True] the function
    returns that [int], with [sparse=False] it raises [AttributeError] at
    [H.A]. *)
Theorem all_terms_nil_iff (n m : nat) (j bz : float) (cyclic sparse : bool) :
  (all_terms n m j bz cyclic = []
   <-> n = 0 \/ m = 0
       \/ (cyclic = false /\ n = 1 /\ m = 1 /\ PrimFloat.eqb bz 0 = true))
  /\ (all_terms n m j bz cyclic = [] ->
      py_sum (all_terms n m j bz cyclic) = Py_int0
      /\ ham_heis_2D n m j bz cyclic sparse
         = if sparse then Some Py_int0 else None).
Proof.
  split.
  - rewrite <- length_zero_iff_nil, length_all_terms.
    destruct cyclic.
    + rewrite length_gen_pairs_cyclic.
      destruct (PrimFloat.eqb bz 0), n as [|n], m as [|m]; simpl;
        split; intros H; try lia; try tauto;
        destruct H as [H | [H | [H _]]]; discriminate.
    + rewrite length_gen_pairs_open.
      destruct (PrimFloat.eqb bz 0), n as [|[|n]], m as [|[|m]]; simpl;
        split; intros H; try lia; try tauto;
        destruct H as [H | [H | [_ [H1 [H2 H3]]]]]; try discriminate;
        lia.
  - intros E. split; [now rewrite E | now apply ham_heis_2D_no_term].
Qed.

(** X17. With open boundaries and at least one term to add (a lattice of
    two sites or more, or [bz != 0.0]) [ham_heis_2D] returns, and what it
    returns is the sum of the two-site terms
    [ikron(j * S^s, dims, inds=pair)] over the nearest-neighbour pairs of
    the lattice and the three directions, followed by the field terms
    [ikron(bz * S^z, dims, inds=[site])] of all sites exactly when
    [bz != 0.0]: the fold of [+] over them from the [int] zero, through
    [H.real] where [isreal(H)] and through [qarray(H.A)] when not
    [sparse]. The pairs summed over are the nearest-neighbour pairs, each
    once: a permutation of [nn_bonds], every adjacent pair of sites in
    one of its two orientations. *)
Theorem ham_heis_2D_open_returns (n m : nat) (j bz : float)
    (sparse : bool) :
  1 <= n -> 1 <= m -> 2 <= n * m \/ PrimFloat.eqb bz 0 = false ->
  let dims := dims_2D n m in
  let pairs := gen_pairs n m false in
  let two_site :=
    flat_map
      (fun pr : bond =>
         map (fun s => ikron (py_scale j (spin_operator s (kw_sparse true)))
                         dims [fst pr; snd pr])
             ["x"%string; "y"%string; "z"%string])
      pairs in
  let field :=
    map (fun site =>
           ikron (py_scale bz (spin_operator "z"%string (kw_sparse true)))
                 dims [site])
        (sites n m) in
  let H :=
    fold_left py_add
      (two_site ++ if PrimFloat.eqb bz 0 then [] else field) py_int0 in
  let H_real := if isreal H then real_part H else H in
  Permutation pairs (nn_bonds n m)
  /\ (forall a b, In (a, b) pairs ->
        In a (sites n m) /\ In b (sites n m) /\ adjacent a b)
  /\ (forall a b, In a (sites n m) -> In b (sites n m) -> adjacent a b ->
        In (a, b) pairs \/ In (b, a) pairs)
  /\ ham_heis_2D n m j bz false sparse
     = Some (Py_lib (if sparse then H_real else qarray_dense H_real)).
Proof.
  intros Hn Hm Hterm dims pairs two_site field H H_real.
  split; [apply gen_pairs_open_perm | ].
  split; [intros a b Hab; apply gen_pairs_open_adjacent in Hab; tauto | ].
  split; [apply adjacent_gen_pairs_open | ].
  assert (Hne : all_terms n m j bz false <> []).
  { intros E. apply (f_equal (@length obj)) in E.
    rewrite length_all_terms, length_gen_pairs_open in E. simpl in E.
    destruct Hterm as [Hs | Hb].
    - assert (2 <= n \/ 2 <= m) as [H2 | H2] by nia; nia.
    - rewrite Hb in E. nia. }
  unfold ham_heis_2D. rewrite (py_sum_terms _ Hne), as_returned_lib.
  unfold all_terms. rewrite interactions_terms.
  unfold H_real, H.
  destruct (PrimFloat.eqb bz 0); reflexivity.
Qed.

End Ham_heis_2D_terms.

(** ** The comprehensions of the 2D notebook *)

Lemma py_listcomp_None {A B : Type} (f : A -> option B) (l : list A) :
  py_listcomp f l = None <-> exists x, In x l /\ f x = None.
Proof.
  induction l as [|a l IH]; simpl.
  - split; [discriminate | intros [x [[] _]]].
  - destruct (f a) as [y|] eqn:Ea.
    + destruct (py_listcomp f l) as [ys|].
      * split; [discriminate | ].
        intros [x [[E | Hx] Hf]]; [congruence | ].
        assert (Hn : Some ys = None) by (apply IH; now exists x).
        discriminate Hn.
      * split; [ | reflexivity]. intros _.
        destruct (proj1 IH eq_refl) as [x [Hx Hf]].
        exists x. split; [now right | exact Hf].
    + split; [ | reflexivity]. intros _. exists a. split; [now left | exact Ea].
Qed.

Section Comprehensions.

Context {obj : Type} {Q : Quimb obj}.

(** X10. [m_ij] raises [IndexError] exactly when [Sz_ij] lacks an entry
    [(i, j)] with [i < n] and [j < m]; rows and entries beyond [n] and
    [m] are not read. When it does not raise, entry [(i, j)] of the
    result is [expec(Sz_ij[i][j], gs)]. *)
Theorem m_ij_index_error (Sz_ij : list (list obj)) (gs : obj) (n m : nat) :
  (m_ij Sz_ij gs n m = None
   <-> exists i j, i < n /\ j < m /\ py_index2 Sz_ij i j = None)
  /\ (forall r i j, m_ij Sz_ij gs n m = Some r -> i < n -> j < m ->
        py_index2 r i j
        = option_map (fun op => expec op gs) (py_index2 Sz_ij i j)).
Proof.
  split.
  - unfold m_ij. rewrite py_listcomp_None. split.
    + intros [i [Hi Hrow]]. apply py_listcomp_None in Hrow.
      destruct Hrow as [j [Hj Hf]]. exists i, j.
      apply in_range in Hi. apply in_range in Hj.
      split; [exact Hi | split; [exact Hj | ]].
      now destruct (py_index2 Sz_ij i j).
    + intros [i [j [Hi [Hj E]]]]. exists i.
      split; [now apply in_range | ].
      apply py_listcomp_None. exists j.
      split; [now apply in_range | now rewrite E].
  - intros r i j Hr Hi Hj.
    set (f := fun i j => match py_index2 Sz_ij i j with
                         | Some op => expec op gs
                         | None => gs
                         end).
    assert (Hall : forall i j, i < n -> j < m ->
                     py_index2 Sz_ij i j <> None).
    { intros i0 j0 Hi0 Hj0 E.
      assert (Hn : m_ij Sz_ij gs n m = None).
      { unfold m_ij. apply py_listcomp_None. exists i0.
        split; [now apply in_range | ].
        apply py_listcomp_None. exists j0.
        split; [now apply in_range | now rewrite E]. }
      congruence. }
    assert (Hm : m_ij Sz_ij gs n m
                 = Some (map (fun i => map (fun j => f i j) (range m))
                             (range n))).
    { unfold m_ij. apply py_listcomp_map. intros i0 Hi0.
      apply py_listcomp_map. intros j0 Hj0.
      apply in_range in Hi0. apply in_range in Hj0. unfold f.
      specialize (Hall i0 j0 Hi0 Hj0).
      now destruct (py_index2 Sz_ij i0 j0). }
    rewrite Hm in Hr. injection Hr as <-.
    rewrite (py_index2_grid f n m i j Hi Hj). unfold f.
    specialize (Hall i j Hi Hj).
    now destruct (py_index2 Sz_ij i j).
Qed.

(** X11. [mi_ij], computed from the [rho_ab_ij] of the notebook, never
    raises. Its entry at [target] is the mutual information of the
    purified reduced state that keeps the target site twice, and this is
    the only entry that is purified; every other entry [(i, j)] is
    [mutinf] of the reduced state of [target] and [(i, j)]. *)
Theorem mi_ij_entries (gs : obj) (dims : list (list nat)) (target : coord)
    (n m : nat) :
  exists r,
    mi_ij (rho_ab_ij gs dims target n m) target n m = Some r
    /\ length r = n
    /\ forall i j, i < n -> j < m ->
         py_index2 r i j
         = Some (if coord_eqb (i, j) target
                 then mutinf (purify (partial_trace gs dims
                                                    [target; target]))
                 else mutinf (partial_trace gs dims [target; (i, j)])).
Proof.
  set (f := fun i j =>
              if coord_eqb (i, j) target
              then mutinf (purify (partial_trace gs dims [target; target]))
              else mutinf (partial_trace gs dims [target; (i, j)])).
  exists (map (fun i => map (fun j => f i j) (range m)) (range n)).
  split; [ | split].
  - unfold mi_ij. apply py_listcomp_map. intros i Hi.
    apply py_listcomp_map. intros j Hj.
    apply in_range in Hi. apply in_range in Hj.
    unfold rho_ab_ij. rewrite py_index2_grid by assumption.
    unfold f. destruct (coord_eqb (i, j) target) eqn:E; simpl.
    + apply coord_eqb_eq in E. now rewrite E.
    + reflexivity.
  - unfold range. now rewrite length_map, length_seq.
  - intros i j Hi Hj. now rewrite (py_index2_grid f).
Qed.

(** X12. [cy_ij] has the same shape: it never raises on the [rho_ab_ij]
    of the notebook, it applies [z_corr] to the purified state at
    [target] and to the reduced state of [target] and [(i, j)]
    elsewhere. *)
Theorem cy_ij_entries (z_corr : obj -> obj) (gs : obj)
    (dims : list (list nat)) (target : coord) (n m : nat) :
  exists r,
    cy_ij z_corr (rho_ab_ij gs dims target n m) target n m = Some r
    /\ length r = n
    /\ forall i j, i < n -> j < m ->
         py_index2 r i j
         = Some (if coord_eqb (i, j) target
                 then z_corr (purify (partial_trace gs dims
                                                    [target; target]))
                 else z_corr (partial_trace gs dims [target; (i, j)])).
Proof.
  set (f := fun i j =>
              if coord_eqb (i, j) target
              then z_corr (purify (partial_trace gs dims [target; target]))
              else z_corr (partial_trace gs dims [target; (i, j)])).
  exists (map (fun i => map (fun j => f i j) (range m)) (range n)).
  split; [ | split].
  - unfold cy_ij. apply py_listcomp_map. intros i Hi.
    apply py_listcomp_map. intros j Hj.
    apply in_range in Hi. apply in_range in Hj.
    unfold rho_ab_ij. rewrite py_index2_grid by assumption.
    unfold f. destruct (coord_eqb (i, j) target) eqn:E; simpl.
    + apply coord_eqb_eq in E. now rewrite E.
    + reflexivity.
  - unfold range. now rewrite length_map, length_seq.
  - intros i j Hi Hj. now rewrite (py_index2_grid f).
Qed.

End Comprehensions.

(** ** The optimisation loop, for any number of rounds *)

Lemma printed_rounds {X : Type} (f : nat -> X) (r : nat) :
  map fst (flat_map (fun k => if S k mod 10 =? 0 then [(S k, f k)] else [])
                    (seq 0 r))
  = map (fun q => 10 * q) (seq 1 (r / 10)).
Proof.
  induction r as [|r IH].
  - reflexivity.
  - rewrite seq_S, flat_map_app, map_app, IH. cbn [flat_map Nat.add].
    pose proof (Nat.div_mod_eq r 10) as Hr.
    pose proof (Nat.div_mod_eq (S r) 10) as Hs.
    assert (Br : r mod 10 < 10) by (apply Nat.mod_upper_bound; lia).
    assert (Bs : S r mod 10 < 10) by (apply Nat.mod_upper_bound; lia).
    destruct (Nat.eqb_spec (S r mod 10) 0) as [E | E].
    + assert (Hq : S r / 10 = S (r / 10)) by lia.
      rewrite Hq, seq_S, !map_app. cbn [app map fst]. f_equal.
      f_equal. lia.
    + assert (Hq : S r / 10 = r / 10) by lia.
      rewrite Hq. cbn [app map]. now rewrite app_nil_r.
Qed.

Section Optimise_any_rounds.

Context {tobj : Type} {T : TorchMPS tobj}.

(** X13. The update of a round does not look at the round number: the
    loop run for [a + b] rounds reaches the tensors and the optimiser, and
    makes the calls, of a loop of [b] rounds resumed from where a loop of
    [a] rounds stopped. Only the printed round numbers differ. *)
Theorem optimize_resumes (a b : nat) (target : tobj) (s : opt_state tobj) :
  let whole := optimize (a + b) target s in
  let resumed := optimize b target (optimize a target s) in
  cur_mps whole = cur_mps resumed
  /\ cur_opt whole = cur_opt resumed
  /\ calls whole = calls resumed.
Proof.
  cbv zeta. induction b as [|b [IHm [IHo IHc]]].
  - rewrite Nat.add_0_r. unfold optimize at 2 4 6. simpl. auto.
  - rewrite Nat.add_succ_r, !optimize_succ.
    pose proof (optimize_round_state target (optimize (a + b) target s)
                  (S (a + b))) as H1.
    pose proof (optimize_round_state target
                  (optimize b target (optimize a target s)) (S b)) as H2.
    rewrite IHm, IHo, <- H2 in H1. injection H1 as Hm Ho.
    rewrite !optimize_round_calls, IHc, IHm. auto.
Qed.

(** X14. The loop prints at every tenth round and at no other: after
    [rounds] rounds it has printed [rounds / 10] lines, for the rounds
    [10, 20, ...]; a loop of fewer than ten rounds prints nothing. *)
Theorem optimize_prints_every_tenth (rounds : nat) (target mps0 opt0 : tobj) :
  let s := optimize rounds target (mk_opt_state mps0 opt0 [] []) in
  map fst (printed s) = map (fun q => 10 * q) (seq 1 (rounds / 10))
  /\ length (printed s) = rounds / 10
  /\ (rounds < 10 -> printed s = []).
Proof.
  intros s.
  generalize (optimize_spec rounds target mps0 opt0 [] []).
  fold s. generalize s. clear s.
  cbv zeta. intros s [_ [_ Hp]]. rewrite app_nil_l in Hp.
  assert (Hf : map fst (printed s)
               = map (fun q => 10 * q) (seq 1 (rounds / 10)))
    by (rewrite Hp; apply printed_rounds).
  split; [exact Hf | ].
  assert (Hl : length (printed s) = rounds / 10)
    by (rewrite <- (length_map fst), Hf, length_map; apply length_seq).
  split; [exact Hl | ].
  intros Hlt. apply length_zero_iff_nil. rewrite Hl.
  now apply Nat.div_small.
Qed.

End Optimise_any_rounds.

(** ** What the notebooks hold at their end *)

Section Notebook_ends.

Context {obj : Type} {Q : Quimb obj} {tobj : Type} {T : TorchMPS tobj}.

Local Open Scope string_scope.

(** X15. At the end of the optimisation notebook [mps] is what the loop
    left, divided in place by [(mps @ mps)**0.5] and then detached to
    numpy; [t] is [100], and the [loss] left bound is the loss of round
    100, taken at the tensors before the last update and not at the final
    ones. *)
Theorem ex_torch_end :
  exists g,
    run ex_torch = Some g
    /\ (let start := mk_opt_state ex_torch_mps0 ex_torch_opt0 [] [] in
        let mps100 := cur_mps (optimize 100 ex_torch_target start) in
        let mps99 := cur_mps (optimize 99 ex_torch_target start) in
        get_tobj "mps" g
        = Some (apply_to_arrays
                  (tn_idiv mps100
                           (t_pow_float (tn_matmul mps100 mps100) 0.5%float))
                  fn_detach_numpy)
        /\ get_tobj "loss" g
           = Some (t_div (t_neg (t_pow_int
                                   (tn_matmul mps99 ex_torch_target) 2))
                         (tn_matmul mps99 mps99))
        /\ get_tnat "t" g = Some 100).
Proof.
  eexists. split.
  { unfold run.
    cbv - [optimize last_loss calls cur_mps cur_opt].
    rewrite last_loss_optimize.
    cbv - [optimize neg_overlap calls cur_mps cur_opt].
    reflexivity. }
  cbv zeta. repeat split; reflexivity.
Qed.

(** X16. At the end of the 2D notebook [mi_ij] and [cy_ij] are computed
    from the ground state that [eigh] returned for the Hamiltonian with
    the symmetry-breaking field: at every site but [(1, 2)] from the
    reduced state of [(1, 2)] and that site, at [(1, 2)] from the
    purified reduced state; [cy_ij] through the function that
    [correlation] returned for [Sy] on the two subsystems of dimension
    two. *)
Theorem ex_2d_end :
  exists g,
    run ex_2d = Some g
    /\ (let gs := snd (eigh ex_2d_H 1) in
        let rho i j :=
          if coord_eqb (i, j) (1, 2)
          then purify (partial_trace gs (dims_2D 4 5) [(1, 2); (1, 2)])
          else partial_trace gs (dims_2D 4 5) [(1, 2); (i, j)] in
        let Sy := spin_operator "y" kw_default in
        get_grid "mi_ij" g
        = Some (map (fun i => map (fun j => mutinf (rho i j)) (range 5))
                    (range 4))
        /\ get_grid "cy_ij" g
           = Some (map (fun i =>
                          map (fun j =>
                                 correlation_precomp Sy Sy 0 1 [2; 2]
                                                     (rho i j))
                              (range 5))
                       (range 4))).
Proof.
  eexists. split; [reflexivity | ].
  cbv zeta. split; reflexivity.
Qed.

End Notebook_ends.

(** ** Concrete runs of the further properties *)

Lemma gen_pairs_in_lattice_witness :
  In ((1, 2), (0, 2)) (gen_pairs 2 3 true)
  /\ In (0, 2) (sites 2 3)
  /\ py_index2 (dims_2D 2 3) 0 2 = Some 2.
Proof.
  assert (H : In ((1, 2), (0, 2)) (gen_pairs 2 3 true))
    by (simpl; tauto).
  split; [exact H | ].
  pose proof (gen_pairs_in_lattice 2 3 true (1, 2) (0, 2) H) as G.
  split; [exact (proj1 (proj2 G)) | exact (proj2 (proj2 (proj2 G)))].
Defined.

Lemma gen_pairs_cyclic_oriented_witness :
  3 <= 3 /\ 3 <= 4
  /\ In ((2, 0), (0, 0)) (gen_pairs 3 4 true)
  /\ ~ In ((0, 0), (2, 0)) (gen_pairs 3 4 true).
Proof.
  assert (H1 : 3 <= 3) by lia. assert (H2 : 3 <= 4) by lia.
  assert (H : In ((2, 0), (0, 0)) (gen_pairs 3 4 true))
    by (simpl; tauto).
  split; [exact H1 | split; [exact H2 | split; [exact H | ]]].
  exact (gen_pairs_cyclic_oriented 3 4 (2, 0) (0, 0) H1 H2 H).
Defined.

Lemma gen_pairs_cyclic_two_rows_witness :
  0 < 2 /\ 1 < 3
  /\ In ((0, 1), (1, 1)) (gen_pairs 2 3 true)
  /\ In ((1, 1), (0, 1)) (gen_pairs 2 3 true).
Proof.
  assert (H1 : 0 < 2) by lia. assert (H2 : 1 < 3) by lia.
  split; [exact H1 | split; [exact H2 | ]].
  exact (proj1 (gen_pairs_cyclic_two_rows 2 3 0 1 H1 H2) eq_refl).
Defined.

Lemma gen_pairs_cyclic_degree_witness :
  In (0, 0) (sites 1 1)
  /\ length (pairs_from (0, 0) (gen_pairs 1 1 true)) = 2
  /\ length (pairs_into (0, 0) (gen_pairs 1 1 true)) = 2.
Proof.
  assert (H : In (0, 0) (sites 1 1)) by (simpl; tauto).
  split; [exact H | ].
  exact (gen_pairs_cyclic_degree 1 1 (0, 0) H).
Defined.

Lemma gen_pairs_open_degree_witness :
  0 < 4 /\ 2 < 5
  /\ length (pairs_from (0, 2) (gen_pairs 4 5 false)) = 2
  /\ length (pairs_into (0, 2) (gen_pairs 4 5 false)) = 1.
Proof.
  assert (H1 : 0 < 4) by lia. assert (H2 : 2 < 5) by lia.
  split; [exact H1 | split; [exact H2 | ]].
  exact (gen_pairs_open_degree 4 5 0 2 H1 H2).
Defined.

Lemma ham_heis_2D_open_returns_witness :
  1 <= 1 /\ 1 <= 2 /\ 2 <= 1 * 2
  /\ ham_heis_2D (Q := Quimb_sym) 1 2 1%float 0%float false false
     = Some
         (Py_lib
            (SDense
               (SReal
                  (SAdd
                     (SAdd
                        (SAdd SInt0
                           (SIkron
                              (SScale 1%float (SSpin "x" (kw_sparse true)))
                              [[2; 2]] [(0, 0); (0, 1)]))
                        (SIkron
                           (SScale 1%float (SSpin "y" (kw_sparse true)))
                           [[2; 2]] [(0, 0); (0, 1)]))
                     (SIkron (SScale 1%float (SSpin "z" (kw_sparse true)))
                             [[2; 2]] [(0, 0); (0, 1)]))))).
Proof.
  assert (H1 : 1 <= 1) by lia. assert (H2 : 1 <= 2) by lia.
  assert (H3 : 2 <= 1 * 2) by (simpl; lia).
  split; [exact H1 | split; [exact H2 | split; [exact H3 | ]]].
  exact (proj2 (proj2 (proj2
           (ham_heis_2D_open_returns (Q := Quimb_sym) 1 2 1%float 0%float
              false H1 H2 (or_introl H3))))).
Defined.
